(** * Verification of the MLB_Data_2025 ETL transforms (scripts/run_etl.py)

    A shallow embedding of the three pandas transforms of [run_etl.py]:
    [process_games], [process_linescores] and [process_runner_play],
    together with the helpers [uniq_join_keep_dups] and
    [calculate_reached_base].

    Modelling conventions.
    - A DataFrame is a list of rows (records); a column computed from a
      frame is a list aligned with the rows.
    - Integer columns are [Z]; text columns are [string]; a cell that may be
      missing (NaN / None) is an [option].  Where the code computes on an
      integer column the result is an [int64], with its wrap-around
      written out; a column that passes through [float64] (after
      [shift]) is rounded as a [float64] is.  The key columns ([gamePk],
      [inning], [half], [battingteamid], [atBatIndex], [playIndex],
      [runnerid]) and [source_folder_date] are taken to be present.
    - [sort_values] on several columns is pandas' lexsort: a stable sort on
      the lexicographic key, missing values last; descending columns
      reverse the comparison.  Text compares as Python [str] does, code
      unit by code unit.
    - [drop_duplicates(subset, keep="first")] keeps a row when no earlier
      row of the frame has the same subset key. *)

From Stdlib Require Import ZArith List String Ascii Bool Lia.
From Stdlib Require Import Sorting.Sorted Sorting.Permutation.
Import ListNotations.

Open Scope string_scope.
Open Scope list_scope.
Open Scope Z_scope.

(* ================================================================== *)
(** ** Column orders *)

(** The three-way comparison a column type is sorted by. *)
Class Cmp (A : Type) := cmp : A -> A -> comparison.

#[global] Instance Z_cmp : Cmp Z := Z.compare.
#[global] Instance string_cmp : Cmp string := String.compare.

(** A nullable column: missing values sort last ([na_position="last"]). *)
#[global] Instance option_cmp {A} `{Cmp A} : Cmp (option A) :=
  fun a b =>
    match a, b with
    | Some x, Some y => cmp x y
    | Some _, None => Lt
    | None, Some _ => Gt
    | None, None => Eq
    end.

(** A column sorted with [ascending=False]. *)
Record Desc (A : Type) := desc { asc : A }.
Arguments desc {A} _.
Arguments asc {A} _.

#[global] Instance desc_cmp {A} `{Cmp A} : Cmp (Desc A) :=
  fun a b => cmp (asc b) (asc a).

(** Several columns: lexicographic, leftmost column first. *)
#[global] Instance prod_cmp {A B} `{Cmp A} `{Cmp B} : Cmp (A * B) :=
  fun p q =>
    match cmp (fst p) (fst q) with
    | Eq => cmp (snd p) (snd q)
    | c => c
    end.

Definition key_eqb {K} `{Cmp K} (a b : K) : bool :=
  match cmp a b with Eq => true | _ => false end.

Definition key_leb {K} `{Cmp K} (a b : K) : bool :=
  match cmp a b with Gt => false | _ => true end.

(** The laws a column order obeys; proved for every instance below. *)
Class CmpLaws (A : Type) `{Cmp A} : Prop := {
  cmp_eq_iff : forall a b : A, cmp a b = Eq <-> a = b;
  cmp_antisym : forall a b : A, cmp b a = CompOpp (cmp a b);
  cmp_lt_trans : forall a b c : A, cmp a b = Lt -> cmp b c = Lt -> cmp a c = Lt
}.

(* ================================================================== *)
(** ** Machine numbers *)

(** An [int64] result: the value modulo [2^64], in [[-2^63, 2^63)]. *)
Definition wrap64 (z : Z) : Z := (z + 2 ^ 63) mod 2 ^ 64 - 2 ^ 63.

(** The [float64] nearest to an integer, as the integer it denotes: the
    integer itself up to [2^53] in magnitude, beyond that the integer
    rounded to 53 significant bits, ties to even. *)
Definition float64_of_int (z : Z) : Z :=
  let a := Z.abs z in
  if a <=? 2 ^ 53 then z
  else
    let e := Z.log2 a - 52 in
    let q := a / 2 ^ e in
    let r := a mod 2 ^ e in
    let half := 2 ^ (e - 1) in
    let q' := if (half <? r) || ((r =? half) && Z.odd q) then q + 1 else q in
    Z.sgn z * (q' * 2 ^ e).

(** [astype(int)] of an integer-valued [float64]: the value when [int64]
    holds it, and otherwise [-2^63], which is what the conversion gives on
    x86-64. *)
Definition int64_of_float (f : Z) : Z :=
  if (- 2 ^ 63 <=? f) && (f <? 2 ^ 63) then f else - 2 ^ 63.

(* ================================================================== *)
(** ** Frame operations *)

Section Frame.
Context {R K : Type} `{Cmp K}.
Variable col : R -> K.

(** [df.sort_values(cols)]: stable insertion into the sorted rest. *)
Fixpoint insert_row (x : R) (l : list R) : list R :=
  match l with
  | [] => [x]
  | y :: t => if key_leb (col x) (col y) then x :: y :: t
              else y :: insert_row x t
  end.

Fixpoint sort_values (l : list R) : list R :=
  match l with
  | [] => []
  | x :: t => insert_row x (sort_values t)
  end.

(** [df.drop_duplicates(subset, keep="first")], [seen] being the keys of
    the rows already passed. *)
Fixpoint drop_duplicates_from (seen : list K) (l : list R) : list R :=
  match l with
  | [] => []
  | x :: t =>
      if existsb (key_eqb (col x)) seen then drop_duplicates_from seen t
      else x :: drop_duplicates_from (col x :: seen) t
  end.

Definition drop_duplicates (l : list R) : list R :=
  drop_duplicates_from [] l.

(** Ascending on [col], ties allowed. *)
Definition ascending (l : list R) : Prop :=
  StronglySorted (fun a b => key_leb (col a) (col b) = true) l.

(** Ascending on [col] with no two rows sharing a key. *)
Definition strictly_ascending (l : list R) : Prop :=
  StronglySorted (fun a b => cmp (col a) (col b) = Lt) l.

(** The rows of one group, in frame order. *)
Definition group_rows (k : K) (l : list R) : list R :=
  filter (fun r => key_eqb (col r) k) l.

(** [df.groupby(cols, sort=False)]: the groups in order of first
    appearance, each as its first row and the rows after it. *)
Definition groupby (l : list R) : list (R * list R) :=
  flat_map
    (fun r0 => match group_rows (col r0) l with
               | [] => []
               | r :: g => [(r, g)]
               end)
    (drop_duplicates l).

(** [groupby(cols)[c].cumsum()] on an [int64] column: the running sum of
    [c] within the row's group, the row included, wrapping as [int64]
    does.  [st] holds each group's sum so far. *)
Fixpoint assoc_get (k : K) (st : list (K * Z)) : option Z :=
  match st with
  | [] => None
  | (k', v) :: t => if key_eqb k k' then Some v else assoc_get k t
  end.

Fixpoint group_cumsum_from (st : list (K * Z)) (l : list R) (vals : list Z)
  : list Z :=
  match l, vals with
  | x :: t, v :: vs =>
      let s := wrap64 (match assoc_get (col x) st with
                       | Some a => a
                       | None => 0
                       end + v) in
      s :: group_cumsum_from ((col x, s) :: st) t vs
  | _, _ => []
  end.

Definition group_cumsum (l : list R) (vals : list Z) : list Z :=
  group_cumsum_from [] l vals.

(** [groupby(cols)[c].shift(1)]: the value of [c] at the previous row of
    the row's group, missing for the group's first row. *)
Fixpoint group_shift_from (st : list (K * Z)) (l : list R) (vals : list Z)
  : list (option Z) :=
  match l, vals with
  | x :: t, v :: vs =>
      assoc_get (col x) st :: group_shift_from ((col x, v) :: st) t vs
  | _, _ => []
  end.

Definition group_shift (l : list R) (vals : list Z) : list (option Z) :=
  group_shift_from [] l vals.
End Frame.

(** [series.fillna(0).astype(int)] on an integer column with gaps. *)
Definition fillna0 (v : option Z) : Z :=
  match v with Some z => z | None => 0 end.

(** [.shift(1).fillna(0).astype(int)] on an [int64] column: the shift
    leaves a gap in the first row of each group, which makes the column
    [float64]; the gap becomes 0 and the column is cast back. *)
Definition shifted_fillna0 (v : option Z) : Z :=
  match v with
  | Some z => int64_of_float (float64_of_int z)
  | None => 0
  end.

(** [series.sum()]. *)
Definition sumZ (l : list Z) : Z := fold_right Z.add 0 l.

(** Schema bookkeeping: column labels of a frame. *)
Definition has_column (c : string) (cols : list string) : bool :=
  existsb (String.eqb c) cols.

(** [df[c] = ...]: an existing column is overwritten in place, a new one is
    appended. *)
Definition assign_column (c : string) (cols : list string) : list string :=
  if has_column c cols then cols else cols ++ [c].

(** [df.drop(columns=ds, errors="ignore")]. *)
Definition drop_columns (ds cols : list string) : list string :=
  filter (fun c => negb (has_column c ds)) cols.

(* ================================================================== *)
(** ** Transform: games *)

Module Games.

(** A raw schedule row: [gamePk], the other schedule fields as read, and
    the batch tag added by [load_all_csvs]. *)
Record Raw := mkRaw {
  gamePk : Z;
  fields : list (string * string);
  source_folder_date : string
}.

(** A row of the [game] output. *)
Record Game := mkGame {
  out_gamePk : Z;
  out_fields : list (string * string)
}.

Definition sort_key (r : Raw) : Z * Desc string :=
  (gamePk r, desc (source_folder_date r)).

(** Lines 75-76: sort by [gamePk] ascending and [source_folder_date]
    descending, keep the first row per [gamePk]. *)
Definition dedup (df : list Raw) : list Raw :=
  drop_duplicates gamePk (sort_values sort_key df).

(** Line 77: [drop(columns=["source_folder_date"])]. *)
Definition drop_tag (r : Raw) : Game :=
  mkGame (gamePk r) (fields r).

Definition process_games (df_games_raw : list Raw) : list Game :=
  map drop_tag (dedup df_games_raw).

End Games.

(* ================================================================== *)
(** ** Transform: linescores *)

Module Linescores.

(** A linescore row; [T] is the type of the [runs] column: [option Z] as
    read (the cell may be empty), [Z] after line 98.  The field set is
    that of the raw [linescores.csv] contract. *)
Record Row (T : Type) := mkRow {
  gamePk : Z;
  inning : Z;
  half : string;
  battingteamid : Z;
  runs : T;
  source_folder_date : string
}.
Arguments mkRow {T} _ _ _ _ _ _.
Arguments gamePk {T} _.
Arguments inning {T} _.
Arguments half {T} _.
Arguments battingteamid {T} _.
Arguments runs {T} _.
Arguments source_folder_date {T} _.

Definition Raw := Row (option Z).

(** The frame while the derived columns are being computed. *)
Record Work := mkWork {
  row : Row Z;
  cum_runs_batting : Z;
  cum_runs_total : Z;
  battingteam_score : Z;
  total_score : Z;
  battingteam_score_diff : Z
}.

(** A row of the [linescore] output. *)
Record Out := mkOut {
  out_gamePk : Z;
  out_inning : Z;
  out_half : string;
  out_battingteamid : Z;
  out_runs : Z;
  out_battingteam_score : Z;
  out_battingteam_score_diff : Z
}.

Definition half_inning {T} (r : Row T) : Z * Z * string :=
  (gamePk r, inning r, half r).

Definition sort_key {T} (r : Row T) : Z * Z * string * Desc string :=
  (half_inning r, desc (source_folder_date r)).

(** Lines 94-95. *)
Definition dedup (df : list Raw) : list Raw :=
  drop_duplicates half_inning (sort_values sort_key df).

(** Line 98: [df["runs"].fillna(0).astype(int)]. *)
Definition normalize_runs (r : Raw) : Row Z :=
  mkRow (gamePk r) (inning r) (half r) (battingteamid r)
        (fillna0 (runs r)) (source_folder_date r).

(** Line 101: the frame the running totals are computed on. *)
Definition chronological (df : list Raw) : list (Row Z) :=
  sort_values half_inning (map normalize_runs (dedup df)).

Definition batting_team (r : Row Z) : Z * Z := (gamePk r, battingteamid r).

Definition game (r : Row Z) : Z := gamePk r.

(** Row-wise assembly of the frame from its columns; line 120 is the
    element-wise [int64] column arithmetic. *)
Fixpoint with_columns (df : list (Row Z)) (cb ct bs ts : list Z) : list Work :=
  match df, cb, ct, bs, ts with
  | r :: df', a :: cb', b :: ct', s :: bs', t :: ts' =>
      mkWork r a b s t (wrap64 (s - wrap64 (t - s)))
      :: with_columns df' cb' ct' bs' ts'
  | _, _, _, _, _ => []
  end.

(** Lines 104-120. *)
Definition derive (df : list (Row Z)) : list Work :=
  let cum_runs_batting := group_cumsum batting_team df (map runs df) in
  let cum_runs_total := group_cumsum game df (map runs df) in
  let battingteam_score :=
    map shifted_fillna0 (group_shift batting_team df cum_runs_batting) in
  let total_score :=
    map shifted_fillna0 (group_shift game df cum_runs_total) in
  with_columns df cum_runs_batting cum_runs_total battingteam_score total_score.

(** Line 122: the intermediate columns and the batch tag are dropped. *)
Definition drop_intermediate (w : Work) : Out :=
  let r := row w in
  mkOut (gamePk r) (inning r) (half r) (battingteamid r) (runs r)
        (battingteam_score w) (battingteam_score_diff w).

Definition work (df_linescores_raw : list Raw) : list Work :=
  derive (chronological df_linescores_raw).

Definition process_linescores (df_linescores_raw : list Raw) : list Out :=
  map drop_intermediate (work df_linescores_raw).

(** The column labels of the frame through lines 104-122. *)
Definition dropped_columns : list string :=
  ["cum_runs_batting"; "cum_runs_total"; "total_score"; "source_folder_date"].

Definition output_columns (raw_columns : list string) : list string :=
  drop_columns dropped_columns
    (assign_column "battingteam_score_diff"
      (assign_column "total_score"
        (assign_column "battingteam_score"
          (assign_column "cum_runs_total"
            (assign_column "cum_runs_batting" raw_columns))))).

(** Modelled from the spec: the raw [linescores.csv] field set (the data
    files are not part of the sources), with the tag [load_all_csvs]
    adds. *)
Definition base_columns : list string :=
  ["gamePk"; "inning"; "half"; "battingteamid"; "runs"].

Definition raw_columns : list string :=
  base_columns ++ ["source_folder_date"].

(** The total of [runs] over the rows of [pre] that satisfy [same]: the
    score before the current half-inning. *)
Definition runs_before (same : Row Z -> bool) (pre : list (Row Z)) : Z :=
  sumZ (map runs (filter same pre)).

Definition same_batting_team (r x : Row Z) : bool :=
  Z.eqb (gamePk x) (gamePk r) && Z.eqb (battingteamid x) (battingteamid r).

Definition same_game (r x : Row Z) : bool :=
  Z.eqb (gamePk x) (gamePk r).

(** The total magnitude of the [runs] cells of a frame, after and before
    normalisation. *)
Definition magnitude (l : list (Row Z)) : Z :=
  sumZ (map (fun x => Z.abs (runs x)) l).

Definition raw_magnitude (df : list Raw) : Z :=
  sumZ (map (fun r => Z.abs (fillna0 (runs r))) df).

End Linescores.

(* ================================================================== *)
(** ** Transform: runner_play *)

(** [series.fillna(d)] on one text cell. *)
Definition fillna (d : string) (v : option string) : string :=
  match v with Some s => s | None => d end.

(** [series.replace(mapping)]: a cell equal to a key becomes its value. *)
Definition replace (mapping : list (string * string)) (v : string) : string :=
  match find (fun p => String.eqb (fst p) v) mapping with
  | Some p => snd p
  | None => v
  end.

(** [series.dropna()]. *)
Definition dropna {A} (s : list (option A)) : list A :=
  flat_map (fun v => match v with Some a => [a] | None => [] end) s.

(** The ["first"] aggregate: the first cell that is not missing. *)
Definition agg_first {A} (s : list (option A)) : option A :=
  hd_error (dropna s).

(** [pat in s] for a pattern without regex metacharacters. *)
Fixpoint str_contains (pat s : string) : bool :=
  if String.prefix pat s then true
  else match s with
       | EmptyString => false
       | String _ s' => str_contains pat s'
       end.

(** [series.str.contains(pat, na=False)] on one cell. *)
Definition contains_na_false (pat : string) (v : option string) : bool :=
  match v with Some s => str_contains pat s | None => false end.

Module Runners.

(** A raw movement segment of [runners.csv], tagged by [load_all_csvs]. *)
Module Raw.
Record t := mk {
  gamePk : Z;
  atBatIndex : Z;
  playIndex : Z;
  runnerid : Z;
  runnerfullname : option string;
  originBase : option string;
  start : option string;
  end_ : option string;
  isOut : bool;
  eventtype : option string;
  movementreason : option string;
  playid : option string;
  outbase : option string;
  source_folder_date : string
}.
End Raw.

(** A segment after lines 173-192: renamed, lower-cased labels, bases
    filled and home plate standardised. *)
Module Seg.
Record t := mk {
  gamepk : Z;
  atbatindex : Z;
  playindex : Z;
  runnerid : Z;
  runnerfullname : option string;
  startbase : string;
  start : string;
  endbase : string;
  is_out : bool;
  eventtype : option string;
  movementreason : option string;
  playid : option string;
  outbase : option string;
  source_folder_date : string
}.
End Seg.

(** The aggregated row of one play and runner (lines 199-208). *)
Module Merged.
Record t := mk {
  gamepk : Z;
  atbatindex : Z;
  playindex : Z;
  runnerid : Z;
  startbase : string;
  endbase : string;
  runnerfullname : option string;
  reachedbase : string;
  eventtype : option string;
  movementreason : option string;
  is_out : bool;
  playid : option string
}.
End Merged.

(** A row of the [runner_play] output: the aggregate and its flags. *)
Record Play := mkPlay {
  merged : Merged.t;
  is_risp : bool;
  is_firsttothird : bool;
  is_secondtohome : bool
}.

Definition BASE_MAP_REPLACE : list (string * string) :=
  [("score", "HM"); ("4B", "HM")].

Definition segment_key (r : Raw.t)
  : Z * Z * Z * Z * option string * option string :=
  (Raw.gamePk r, Raw.atBatIndex r, Raw.playIndex r, Raw.runnerid r,
   Raw.start r, Raw.end_ r).

Definition sort_key (r : Raw.t) :=
  (segment_key r, desc (Raw.source_folder_date r)).

(** Lines 166-170. *)
Definition dedup (df : list Raw.t) : list Raw.t :=
  drop_duplicates segment_key (sort_values sort_key df).

(** Lines 173-192, on one row. *)
Definition prepare (r : Raw.t) : Seg.t :=
  Seg.mk (Raw.gamePk r) (Raw.atBatIndex r) (Raw.playIndex r) (Raw.runnerid r)
         (Raw.runnerfullname r)
         (fillna "B" (Raw.originBase r))
         (fillna "B" (Raw.start r))
         (replace BASE_MAP_REPLACE (fillna "B" (Raw.end_ r)))
         (Raw.isOut r)
         (Raw.eventtype r) (Raw.movementreason r) (Raw.playid r)
         (option_map (replace BASE_MAP_REPLACE) (Raw.outbase r))
         (Raw.source_folder_date r).

Definition play (s : Seg.t) : Z * Z * Z :=
  (Seg.gamepk s, Seg.atbatindex s, Seg.playindex s).

Definition play_runner (s : Seg.t) : Z * Z * Z * Z :=
  (Seg.gamepk s, Seg.atbatindex s, Seg.playindex s, Seg.runnerid s).

(** Line 195: the frame the groups are taken from. *)
Definition ordered (df : list Raw.t) : list Seg.t :=
  sort_values play (map prepare (dedup df)).

(** Lines 135-145. *)
Definition uniq_join_keep_dups (s : list (option string)) : option string :=
  let vals := filter (fun v => negb (String.eqb v "")) (dropna s) in
  match vals with
  | [] => None
  | _ => Some (String.concat ","
                 (sort_values (fun v => v) (drop_duplicates (fun v => v) vals)))
  end.

(** Lines 148-155; the group is its first row and the rows after it. *)
Definition calculate_reached_base (first : Seg.t) (rest : list Seg.t) : string :=
  let group := first :: rest in
  let safe_segments := filter (fun s => Bool.eqb (Seg.is_out s) false) group in
  match safe_segments with
  | [] => Seg.startbase first
  | s :: t => Seg.endbase (last t s)
  end.

(** Lines 199-208.  [startbase] and [endbase] hold no missing cell after
    line 187, so their ["first"] and ["last"] are the group's first and
    last rows. *)
Definition agg (g : Seg.t * list Seg.t) : Merged.t :=
  let (first, rest) := g in
  let group := first :: rest in
  Merged.mk (Seg.gamepk first) (Seg.atbatindex first) (Seg.playindex first)
            (Seg.runnerid first)
            (Seg.startbase first)
            (Seg.endbase (last rest first))
            (agg_first (map Seg.runnerfullname group))
            (calculate_reached_base first rest)
            (uniq_join_keep_dups (map Seg.eventtype group))
            (uniq_join_keep_dups (map Seg.movementreason group))
            (existsb Seg.is_out group)
            (agg_first (map Seg.playid group)).

(** Lines 211-225. *)
Definition flags (out : Merged.t) : Play :=
  mkPlay out
    (existsb (String.eqb (Merged.startbase out)) ["2B"; "3B"])
    (String.eqb (Merged.startbase out) "1B"
     && String.eqb (Merged.reachedbase out) "3B"
     && negb (contains_na_false "home_run" (Merged.eventtype out))
     && Bool.eqb (Merged.is_out out) false)
    (String.eqb (Merged.startbase out) "2B"
     && String.eqb (Merged.reachedbase out) "HM"
     && negb (contains_na_false "home_run" (Merged.eventtype out))
     && Bool.eqb (Merged.is_out out) false).

Definition process_runner_play (df_runners_raw : list Raw.t) : list Play :=
  map (fun g => flags (agg g)) (groupby play_runner (ordered df_runners_raw)).

(** The key the data model gives a movement segment, with [originBase]
    as its start base. *)
Definition origin_key (r : Raw.t)
  : Z * Z * Z * Z * option string * option string :=
  (Raw.gamePk r, Raw.atBatIndex r, Raw.playIndex r, Raw.runnerid r,
   Raw.originBase r, Raw.end_ r).

(** Legs in occurrence order: each leg starts where the one before it
    ended. *)
Fixpoint chained (l : list Raw.t) : Prop :=
  match l with
  | a :: ((b :: _) as t) => Raw.end_ a = Raw.start b /\ chained t
  | _ => True
  end.

End Runners.

(** [pat] occurs in [s]. *)
Definition Substring (pat s : string) : Prop :=
  exists pre post : string, s = (pre ++ pat ++ post)%string.

(* ================================================================== *)
(** ** IO helper: load_all_csvs *)

Module Loader.

(** How [load_all_csvs] fails: by its own [FileNotFoundError], or by the
    exception [pd.read_csv] raises on a file (an [EmptyDataError] on a
    file with no columns, a [ParserError], ...), which nothing catches. *)
Inductive Error :=
| FileNotFoundError
| ReadCsvError (exception : string).

(** [path.parent.parent.name]: a path is the list of its components, the
    file name last; the name of a path with no component left is empty. *)
Definition folder_date (path : list string) : string :=
  match rev path with
  | _ :: _ :: d :: _ => d
  | _ => ""
  end.

(** Lines 39-47.  [found] lists the files [rglob] yields, in that order,
    each with what [read_csv] does on it: the exception it raises, or the
    rows it returns.  [tag] sets the [source_folder_date] column of a
    row.  The loop stops at the first file whose read raises. *)
Fixpoint read_all {R T : Type} (tag : R -> string -> T)
         (found : list (list string * (string + list R)))
  : Error + list (list T) :=
  match found with
  | [] => inr []
  | (path, read) :: rest =>
      match read with
      | inl exception => inl (ReadCsvError exception)
      | inr df =>
          match read_all tag rest with
          | inl err => inl err
          | inr dfs => inr (map (fun r => tag r (folder_date path)) df :: dfs)
          end
      end
  end.

(** Lines 37-52. *)
Definition load_all_csvs {R T : Type} (tag : R -> string -> T)
           (found : list (list string * (string + list R))) : Error + list T :=
  match read_all tag found with
  | inl err => inl err
  | inr [] => inl FileNotFoundError
  | inr dfs => inr (List.concat dfs)
  end.

(** A row of [games.csv] as read, and the same row tagged. *)
Definition tag_game (g : Games.Game) (d : string) : Games.Raw :=
  Games.mkRaw (Games.out_gamePk g) (Games.out_fields g) d.

End Loader.

(* ================================================================== *)
(** ** Keys of the output rows *)

Definition key_ltb {K} `{Cmp K} (a b : K) : bool :=
  match cmp a b with Lt => true | _ => false end.

(** The half-inning of a [linescore] output row. *)
Definition out_half_inning (o : Linescores.Out) : Z * Z * string :=
  (Linescores.out_gamePk o, Linescores.out_inning o, Linescores.out_half o).

(** [x] is an earlier half-inning than [o], of the same game and batting
    team. *)
Definition earlier_same_team (o x : Linescores.Out) : bool :=
  key_ltb (out_half_inning x) (out_half_inning o)
  && Z.eqb (Linescores.out_gamePk x) (Linescores.out_gamePk o)
  && Z.eqb (Linescores.out_battingteamid x) (Linescores.out_battingteamid o).

(** [x] is an earlier half-inning than [o], of the same game and another
    batting team. *)
Definition earlier_other_team (o x : Linescores.Out) : bool :=
  key_ltb (out_half_inning x) (out_half_inning o)
  && Z.eqb (Linescores.out_gamePk x) (Linescores.out_gamePk o)
  && negb (Z.eqb (Linescores.out_battingteamid x) (Linescores.out_battingteamid o)).

(** The play and runner of a raw segment and of a [runner_play] row. *)
Definition raw_play_runner (r : Runners.Raw.t) : Z * Z * Z * Z :=
  (Runners.Raw.gamePk r, Runners.Raw.atBatIndex r, Runners.Raw.playIndex r,
   Runners.Raw.runnerid r).

Definition out_play_runner (p : Runners.Play) : Z * Z * Z * Z :=
  (Runners.Merged.gamepk (Runners.merged p),
   Runners.Merged.atbatindex (Runners.merged p),
   Runners.Merged.playindex (Runners.merged p),
   Runners.Merged.runnerid (Runners.merged p)).

(* ================================================================== *)
(** ** Sample frames *)

Module Samples.

(** Two schedule rows with distinct [gamePk], the larger one first. *)
Definition games_unsorted : list Games.Raw :=
  [Games.mkRaw 2 [("status", "Final")] "2025-04-01";
   Games.mkRaw 1 [("status", "Final")] "2025-04-01"].

(** Game 1 extracted three times, twice in the latest batch. *)
Definition games_repeated : list Games.Raw :=
  [Games.mkRaw 1 [("status", "Scheduled")] "2025-04-01";
   Games.mkRaw 1 [("status", "Live")] "2025-04-02";
   Games.mkRaw 1 [("status", "Final")] "2025-04-02"].

(** One leg of runner 7 on play (game 1, at-bat 0, play 0). *)
Definition leg (originBase start end_ : option string) (isOut : bool)
           (eventtype : option string) : Runners.Raw.t :=
  Runners.Raw.mk 1 0 0 7 (Some "Runner Seven") originBase start end_ isOut
                 eventtype None (Some "p-0") None "2025-04-01".

End Samples.

(* ================================================================== *)
(** * Properties *)

(** ** The column orders are total orders *)

Lemma ascii_compare_refl (a : ascii) : Ascii.compare a a = Eq.
Proof. unfold Ascii.compare. apply N.compare_refl. Qed.

Lemma ascii_compare_lt_trans (a b c : ascii) :
  Ascii.compare a b = Lt -> Ascii.compare b c = Lt -> Ascii.compare a c = Lt.
Proof.
  unfold Ascii.compare. rewrite !N.compare_lt_iff. apply N.lt_trans.
Qed.

Lemma string_compare_refl (s : string) : String.compare s s = Eq.
Proof.
  induction s as [|a s IH]; simpl; [reflexivity|].
  now rewrite ascii_compare_refl.
Qed.

Lemma string_compare_lt_trans (a b c : string) :
  String.compare a b = Lt -> String.compare b c = Lt -> String.compare a c = Lt.
Proof.
  revert b c.
  induction a as [|x a IH]; intros [|y b] [|z c]; simpl; try discriminate; auto.
  destruct (Ascii.compare x y) eqn:E1; try discriminate;
    destruct (Ascii.compare y z) eqn:E2; try discriminate; intros H1 H2.
  - apply Ascii.compare_eq_iff in E1, E2. subst.
    rewrite ascii_compare_refl. eauto.
  - apply Ascii.compare_eq_iff in E1. subst. now rewrite E2.
  - apply Ascii.compare_eq_iff in E2. subst. now rewrite E1.
  - now rewrite (ascii_compare_lt_trans _ _ _ E1 E2).
Qed.

#[global] Instance Z_laws : CmpLaws Z.
Proof.
  split; unfold cmp, Z_cmp.
  - intros a b. apply Z.compare_eq_iff.
  - intros a b. apply Z.compare_antisym.
  - intros a b c. rewrite !Z.compare_lt_iff. lia.
Qed.

#[global] Instance string_laws : CmpLaws string.
Proof.
  split; unfold cmp, string_cmp.
  - intros a b. split.
    + apply String.compare_eq_iff.
    + intros ->. apply string_compare_refl.
  - intros a b. apply String.compare_antisym.
  - apply string_compare_lt_trans.
Qed.

#[global] Instance option_laws {A} `{CmpLaws A} : CmpLaws (option A).
Proof.
  split.
  - intros [a|] [b|]; unfold cmp; simpl; split; try discriminate; auto.
    + intros E. apply cmp_eq_iff in E. now subst.
    + intros E. injection E as ->. now apply cmp_eq_iff.
  - intros [a|] [b|]; unfold cmp; simpl; auto. apply cmp_antisym.
  - intros [a|] [b|] [c|]; unfold cmp; simpl; try discriminate; auto.
    apply cmp_lt_trans.
Qed.

#[global] Instance desc_laws {A} `{CmpLaws A} : CmpLaws (Desc A).
Proof.
  split.
  - intros [a] [b]. unfold cmp, desc_cmp. simpl. rewrite cmp_eq_iff.
    split; [now intros -> | now intros [= ->]].
  - intros [a] [b]. unfold cmp, desc_cmp. simpl. apply cmp_antisym.
  - intros [a] [b] [c]. unfold cmp, desc_cmp. simpl. intros Hab Hbc.
    eapply cmp_lt_trans; eauto.
Qed.

#[global] Instance prod_laws {A B} `{CmpLaws A} `{CmpLaws B} : CmpLaws (A * B).
Proof.
  split.
  - intros [a b] [a' b']. unfold cmp, prod_cmp. simpl.
    destruct (cmp a a') eqn:E.
    + apply cmp_eq_iff in E. subst. rewrite cmp_eq_iff.
      split; [now intros -> | now intros [= ->]].
    + split; [discriminate|]. intros [= -> ->].
      rewrite (proj2 (cmp_eq_iff a' a') eq_refl) in E. discriminate.
    + split; [discriminate|]. intros [= -> ->].
      rewrite (proj2 (cmp_eq_iff a' a') eq_refl) in E. discriminate.
  - intros [a b] [a' b']. unfold cmp, prod_cmp. simpl.
    rewrite (cmp_antisym a a').
    destruct (cmp a a'); simpl; auto. apply cmp_antisym.
  - intros [a b] [a' b'] [a'' b'']. unfold cmp, prod_cmp. simpl.
    destruct (cmp a a') eqn:E1; try discriminate;
      destruct (cmp a' a'') eqn:E2; try discriminate; intros Hab Hbc.
    + apply cmp_eq_iff in E1, E2. subst.
      rewrite (proj2 (cmp_eq_iff a'' a'') eq_refl). eapply cmp_lt_trans; eauto.
    + apply cmp_eq_iff in E1. subst. now rewrite E2.
    + apply cmp_eq_iff in E2. subst. now rewrite E1.
    + now rewrite (cmp_lt_trans _ _ _ E1 E2).
Qed.

Section CmpFacts.
Context {K : Type} `{CmpLaws K}.

Lemma cmp_refl (a : K) : cmp a a = Eq.
Proof. now apply cmp_eq_iff. Qed.

Lemma cmp_gt_lt (a b : K) : cmp a b = Gt <-> cmp b a = Lt.
Proof.
  rewrite (cmp_antisym a b). destruct (cmp a b); simpl; split; congruence.
Qed.

Lemma key_eqb_eq (a b : K) : key_eqb a b = true <-> a = b.
Proof.
  unfold key_eqb. rewrite <- cmp_eq_iff.
  destruct (cmp a b); split; congruence.
Qed.

Lemma key_eqb_refl (a : K) : key_eqb a a = true.
Proof. now apply key_eqb_eq. Qed.

Lemma key_eqb_neq (a b : K) : key_eqb a b = false <-> a <> b.
Proof.
  rewrite <- key_eqb_eq. destruct (key_eqb a b); split; congruence.
Qed.

Lemma key_eqb_sym (a b : K) : key_eqb a b = key_eqb b a.
Proof.
  destruct (key_eqb b a) eqn:E.
  - apply key_eqb_eq in E. subst. apply key_eqb_refl.
  - apply key_eqb_neq. apply key_eqb_neq in E. congruence.
Qed.

Lemma key_leb_refl (a : K) : key_leb a a = true.
Proof. unfold key_leb. now rewrite cmp_refl. Qed.

Lemma key_leb_false (a b : K) : key_leb a b = false <-> cmp b a = Lt.
Proof.
  unfold key_leb. rewrite <- cmp_gt_lt.
  destruct (cmp a b); split; congruence.
Qed.

Lemma key_leb_lt (a b : K) : cmp a b = Lt -> key_leb a b = true.
Proof. unfold key_leb. now intros ->. Qed.

Lemma key_leb_cases (a b : K) : key_leb a b = true <-> cmp a b = Lt \/ a = b.
Proof.
  unfold key_leb. rewrite <- cmp_eq_iff.
  destruct (cmp a b); split; intros Hc; try congruence; auto.
  destruct Hc; congruence.
Qed.

Lemma key_leb_trans (a b c : K) :
  key_leb a b = true -> key_leb b c = true -> key_leb a c = true.
Proof.
  rewrite !key_leb_cases. intros [Hab| ->] [Hbc| ->]; auto.
  left. eapply cmp_lt_trans; eauto.
Qed.
End CmpFacts.

(** ** List facts used throughout *)

Lemma filter_head_split {A} (p : A -> bool) (l : list A) (x : A) (t : list A) :
  filter p l = x :: t ->
  exists l1 l2, l = l1 ++ x :: l2
                /\ Forall (fun y => p y = false) l1
                /\ p x = true /\ filter p l2 = t.
Proof.
  induction l as [|y l IH]; simpl; [discriminate|].
  destruct (p y) eqn:E.
  - intros [= -> <-]. exists [], l. simpl. auto.
  - intros Hf. destruct (IH Hf) as (l1 & l2 & -> & Hl1 & Hx & Ht).
    exists (y :: l1), l2. simpl. auto.
Qed.

Lemma filter_none {A} (p : A -> bool) (l : list A) :
  Forall (fun y => p y = false) l -> filter p l = [].
Proof.
  induction 1 as [|y l Hy _ IH]; simpl; [reflexivity|]. now rewrite Hy.
Qed.

Lemma StronglySorted_app_inv {A} (R : A -> A -> Prop) (l1 l2 : list A) :
  StronglySorted R (l1 ++ l2) ->
  StronglySorted R l1 /\ StronglySorted R l2
  /\ forall a b, In a l1 -> In b l2 -> R a b.
Proof.
  induction l1 as [|x l1 IH]; simpl; intros Hs.
  - repeat split; [constructor | assumption | contradiction].
  - apply StronglySorted_inv in Hs. destruct Hs as [Hs Hx].
    destruct (IH Hs) as (S1 & S2 & Hc).
    rewrite Forall_app in Hx. destruct Hx as [Hx1 Hx2].
    repeat split; auto.
    + now constructor.
    + intros a b [<-|Ha] Hb; [|now apply Hc].
      rewrite Forall_forall in Hx2. now apply Hx2.
Qed.

(** ** [sort_values] and [drop_duplicates] *)

Section FrameFacts.
Context {R K : Type} `{CmpLaws K}.
Variable col : R -> K.

Lemma insert_row_perm (x : R) (l : list R) :
  Permutation (x :: l) (insert_row col x l).
Proof.
  induction l as [|y l IH]; simpl; [reflexivity|].
  destruct (key_leb (col x) (col y)); [reflexivity|].
  rewrite perm_swap. now constructor.
Qed.

Lemma sort_values_perm (l : list R) : Permutation l (sort_values col l).
Proof.
  induction l as [|x l IH]; simpl; [reflexivity|].
  rewrite <- insert_row_perm. now constructor.
Qed.

Lemma sort_values_In (l : list R) (x : R) :
  In x (sort_values col l) <-> In x l.
Proof.
  split; apply Permutation_in; [symmetry|]; apply sort_values_perm.
Qed.

Lemma insert_row_ascending (x : R) (l : list R) :
  ascending col l -> ascending col (insert_row col x l).
Proof.
  unfold ascending.
  induction l as [|y l IH]; simpl; intros Hs.
  - repeat constructor.
  - apply StronglySorted_inv in Hs. destruct Hs as [Hs Hy].
    destruct (key_leb (col x) (col y)) eqn:E.
    + constructor; [now constructor|]. constructor; [assumption|].
      eapply Forall_impl; [|exact Hy]. simpl. intros z Hz.
      eapply key_leb_trans; eauto.
    + constructor; [now apply IH|].
      eapply Permutation_Forall; [apply insert_row_perm|].
      constructor; [|assumption].
      apply key_leb_false in E. now apply key_leb_lt.
Qed.

Lemma sort_values_ascending (l : list R) : ascending col (sort_values col l).
Proof.
  induction l as [|x l IH]; simpl; [constructor|].
  now apply insert_row_ascending.
Qed.

(** Sorting a frame that is already in order changes nothing. *)
Lemma sort_values_id (l : list R) : ascending col l -> sort_values col l = l.
Proof.
  unfold ascending. induction l as [|x l IH]; simpl; [reflexivity|].
  intros Hs. apply StronglySorted_inv in Hs. destruct Hs as [Hs Hx].
  rewrite (IH Hs). destruct l as [|y l]; simpl; [reflexivity|].
  apply Forall_inv in Hx. now rewrite Hx.
Qed.

(** Stability: rows with equal sort keys keep their frame order. *)
Lemma insert_row_group (k : K) (x : R) (l : list R) :
  group_rows col k (insert_row col x l) = group_rows col k (x :: l).
Proof.
  unfold group_rows.
  induction l as [|y l IH]; simpl; [reflexivity|].
  destruct (key_leb (col x) (col y)) eqn:E; [reflexivity|].
  simpl in *. rewrite IH.
  destruct (key_eqb (col x) k) eqn:Ex; [|reflexivity].
  destruct (key_eqb (col y) k) eqn:Ey; [|reflexivity].
  apply key_eqb_eq in Ex, Ey. rewrite Ex, Ey, key_leb_refl in E. discriminate.
Qed.

Lemma sort_values_stable (k : K) (l : list R) :
  group_rows col k (sort_values col l) = group_rows col k l.
Proof.
  induction l as [|x l IH]; simpl; [reflexivity|].
  rewrite insert_row_group. unfold group_rows in *. simpl. now rewrite IH.
Qed.

Lemma drop_duplicates_from_incl (seen : list K) (l : list R) (x : R) :
  In x (drop_duplicates_from col seen l) -> In x l.
Proof.
  revert seen. induction l as [|y l IH]; simpl; intros seen; [auto|].
  destruct (existsb (key_eqb (col y)) seen).
  - intros Hx. right. eauto.
  - intros [->|Hx]; [now left|right; eauto].
Qed.

(** Of each group, [drop_duplicates] keeps the first row and no other. *)
Lemma drop_duplicates_from_group (k : K) (seen : list K) (l : list R) :
  group_rows col k (drop_duplicates_from col seen l)
  = if existsb (key_eqb k) seen then [] else firstn 1 (group_rows col k l).
Proof.
  unfold group_rows.
  revert seen. induction l as [|y l IH]; intros seen; simpl.
  - now destruct (existsb (key_eqb k) seen).
  - destruct (existsb (key_eqb (col y)) seen) eqn:Ey.
    + rewrite IH. destruct (existsb (key_eqb k) seen) eqn:Ek; [reflexivity|].
      destruct (key_eqb (col y) k) eqn:E; [|reflexivity].
      apply key_eqb_eq in E. congruence.
    + simpl. rewrite IH. simpl. rewrite (key_eqb_sym k (col y)).
      destruct (key_eqb (col y) k) eqn:E; simpl.
      * apply key_eqb_eq in E. subst k. now rewrite Ey.
      * reflexivity.
Qed.

Lemma drop_duplicates_group (k : K) (l : list R) :
  group_rows col k (drop_duplicates col l) = firstn 1 (group_rows col k l).
Proof. unfold drop_duplicates. now rewrite drop_duplicates_from_group. Qed.

Lemma drop_duplicates_In (l : list R) (x : R) :
  In x (drop_duplicates col l) -> In x l.
Proof. apply drop_duplicates_from_incl. Qed.

Lemma group_rows_In (k : K) (l : list R) (x : R) :
  In x (group_rows col k l) <-> In x l /\ col x = k.
Proof. unfold group_rows. now rewrite filter_In, key_eqb_eq. Qed.

(** A frame whose keys strictly ascend has no duplicate to drop. *)
Lemma drop_duplicates_from_id (seen : list K) (l : list R) :
  strictly_ascending col l ->
  Forall (fun x => Forall (fun k => cmp k (col x) = Lt) seen) l ->
  drop_duplicates_from col seen l = l.
Proof.
  unfold strictly_ascending.
  revert seen. induction l as [|y l IH]; simpl; intros seen Hs Hseen;
    [reflexivity|].
  apply StronglySorted_inv in Hs. destruct Hs as [Hs Hy].
  apply Forall_cons_iff in Hseen. destruct Hseen as [Hsy Hseen].
  assert (E : existsb (key_eqb (col y)) seen = false).
  { destruct (existsb (key_eqb (col y)) seen) eqn:E; [|reflexivity].
    apply existsb_exists in E. destruct E as (k & Hk & E).
    apply key_eqb_eq in E. rewrite Forall_forall in Hsy.
    specialize (Hsy k Hk). rewrite <- E, cmp_refl in Hsy. discriminate. }
  rewrite E. f_equal. apply IH; [assumption|].
  rewrite Forall_forall in *. intros x Hx.
  constructor; [now apply Hy | now apply Hseen].
Qed.

Lemma drop_duplicates_id (l : list R) :
  strictly_ascending col l -> drop_duplicates col l = l.
Proof.
  intros Hs. apply drop_duplicates_from_id; [assumption|].
  apply Forall_forall. intros x _. constructor.
Qed.

(** After [drop_duplicates], an ascending col frame strictly ascends. *)
Lemma drop_duplicates_from_strict (seen : list K) (l : list R) :
  ascending col l ->
  Forall (fun x => Forall (fun k => key_leb k (col x) = true) seen) l ->
  strictly_ascending col (drop_duplicates_from col seen l).
Proof.
  unfold ascending, strictly_ascending.
  revert seen. induction l as [|y l IH]; simpl; intros seen Hs Hseen;
    [constructor|].
  apply StronglySorted_inv in Hs. destruct Hs as [Hs Hy].
  apply Forall_cons_iff in Hseen. destruct Hseen as [Hsy Hseen].
  destruct (existsb (key_eqb (col y)) seen) eqn:E; [now apply IH|].
  assert (Hseen' : Forall (fun x => Forall (fun k => key_leb k (col x) = true)
                                      (col y :: seen)) l).
  { rewrite Forall_forall in *. intros x Hx.
    constructor; [now apply Hy | now apply Hseen]. }
  constructor; [now apply IH|].
  apply Forall_forall. intros x Hx.
  assert (Hin : In x l) by (eapply drop_duplicates_from_incl; eauto).
  rewrite Forall_forall in Hy. specialize (Hy x Hin).
  apply key_leb_cases in Hy. destruct Hy as [Hy|Hy]; [assumption|].
  exfalso.
  assert (G : In x (group_rows col (col x) (drop_duplicates_from col (col y :: seen) l)))
    by (apply group_rows_In; auto).
  rewrite drop_duplicates_from_group in G. simpl in G.
  rewrite Hy, key_eqb_refl in G. simpl in G. exact G.
Qed.

Lemma drop_duplicates_strict (l : list R) :
  ascending col l -> strictly_ascending col (drop_duplicates col l).
Proof.
  intros Hs. apply drop_duplicates_from_strict; [assumption|].
  apply Forall_forall. intros x _. constructor.
Qed.

Lemma strictly_ascending_ascending (l : list R) :
  strictly_ascending col l -> ascending col l.
Proof.
  unfold strictly_ascending, ascending.
  induction 1 as [|x l Hs IH Hx]; constructor; [assumption|].
  eapply Forall_impl; [|exact Hx]. intros y. apply key_leb_lt.
Qed.
End FrameFacts.

(** ** Deduplication of repeated extracts

    Every transform deduplicates the same way: sort on the natural key
    ascending and the batch tag descending, then keep the first row of
    each key. *)

Section DedupFacts.
Context {R K : Type} `{CmpLaws K}.
Variable key : R -> K.
Variable batch : R -> string.

Local Abbreviation skey := (fun r : R => (key r, desc (batch r))).
Local Abbreviation dedup_by l := (drop_duplicates key (sort_values skey l)).

Lemma skey_leb_same_key (a b : R) :
  key a = key b ->
  key_leb (skey a) (skey b) = key_leb (batch b) (batch a).
Proof.
  intros E. unfold key_leb, cmp at 1, prod_cmp. simpl.
  now rewrite E, cmp_refl.
Qed.

Lemma skey_leb_key (a b : R) :
  key_leb (skey a) (skey b) = true -> key_leb (key a) (key b) = true.
Proof.
  unfold key_leb, cmp at 1, prod_cmp. simpl.
  now destruct (cmp (key a) (key b)).
Qed.

Lemma key_lt_skey_leb (a b : R) :
  cmp (key a) (key b) = Lt -> key_leb (skey a) (skey b) = true.
Proof.
  intros E. unfold key_leb, cmp at 1, prod_cmp. simpl. now rewrite E.
Qed.

Lemma dedup_by_In (l : list R) (x : R) : In x (dedup_by l) -> In x l.
Proof.
  intros Hx. apply drop_duplicates_In in Hx. now apply sort_values_In in Hx.
Qed.

Lemma dedup_by_strict (l : list R) : strictly_ascending key (dedup_by l).
Proof.
  apply drop_duplicates_strict.
  generalize (sort_values_ascending skey l). unfold ascending.
  generalize (sort_values skey l). intros s.
  induction 1 as [|x s' Hs IH Hx]; constructor; [assumption|].
  eapply Forall_impl; [|exact Hx]. intros y. apply skey_leb_key.
Qed.

(** A frame whose keys strictly ascend is left as it is. *)
Lemma dedup_by_fixed (l : list R) :
  strictly_ascending key l -> dedup_by l = l.
Proof.
  intros Hs. rewrite sort_values_id; [now apply drop_duplicates_id|].
  unfold ascending. unfold strictly_ascending in Hs.
  induction Hs as [|x s' Hs IH Hx]; constructor; [assumption|].
  eapply Forall_impl; [|exact Hx]. intros y. apply key_lt_skey_leb.
Qed.

Lemma dedup_by_idempotent (l : list R) : dedup_by (dedup_by l) = dedup_by l.
Proof. apply dedup_by_fixed, dedup_by_strict. Qed.

(** The survivor of a key: the only row of that key in the output, an
    input row, with the latest batch tag of the key, and the first such
    row of the input. *)
Lemma dedup_by_survivor (l : list R) (k : K) :
  (exists r0, In r0 l /\ key r0 = k) ->
  exists r,
    group_rows key k (dedup_by l) = [r]
    /\ In r l /\ key r = k
    /\ (forall r', In r' l -> key r' = k ->
                   key_leb (batch r') (batch r) = true)
    /\ exists pre post,
         l = pre ++ r :: post
         /\ Forall (fun x => ~ (key x = k /\ batch x = batch r)) pre.
Proof.
  intros (r0 & Hin & Hk).
  pose proof (sort_values_ascending skey l) as Hasc.
  pose proof (sort_values_stable skey) as Hstable.
  pose proof (sort_values_In skey l) as HIn.
  rewrite drop_duplicates_group.
  remember (sort_values skey l) as s eqn:Es. symmetry in Es.
  assert (G0 : In r0 (group_rows key k s))
    by (apply group_rows_In; split; [now apply HIn | assumption]).
  destruct (group_rows key k s) as [|r rest] eqn:G; [contradiction|].
  destruct (filter_head_split _ _ _ _ G) as (s1 & s2 & -> & Hs1 & Hr & _).
  apply key_eqb_eq in Hr.
  exists r. simpl. split; [reflexivity|].
  assert (Hrl : In r l) by (apply HIn, in_elt).
  repeat split; try assumption.
  - intros r' Hr' Hk'. apply HIn in Hr'.
    apply StronglySorted_app_inv in Hasc. destruct Hasc as (_ & Hasc & _).
    apply StronglySorted_inv in Hasc. destruct Hasc as [_ Hasc].
    apply in_app_or in Hr'. destruct Hr' as [Hr'|[<-|Hr']].
    + rewrite Forall_forall in Hs1. specialize (Hs1 r' Hr').
      apply key_eqb_neq in Hs1. contradiction.
    + apply key_leb_refl.
    + rewrite Forall_forall in Hasc. specialize (Hasc r' Hr').
      rewrite skey_leb_same_key in Hasc by congruence. exact Hasc.
  - specialize (Hstable (skey r) l). rewrite Es in Hstable.
    unfold group_rows in Hstable. rewrite filter_app in Hstable.
    simpl in Hstable. rewrite key_eqb_refl in Hstable.
    rewrite filter_none in Hstable.
    + simpl in Hstable. symmetry in Hstable.
      destruct (filter_head_split _ _ _ _ Hstable)
        as (pre & post & -> & Hpre & _ & _).
      exists pre, post. split; [reflexivity|].
      eapply Forall_impl; [|exact Hpre]. simpl. intros x Hx [Ek Eb].
      apply key_eqb_neq in Hx. apply Hx. congruence.
    + eapply Forall_impl; [|exact Hs1]. simpl. intros x Hx.
      apply key_eqb_neq. apply key_eqb_neq in Hx. congruence.
Qed.

(** When the keys of the input are already unique, deduplication only
    reorders. *)
Lemma drop_duplicates_from_unique (seen : list K) (l : list R) :
  NoDup (map key l) ->
  Forall (fun x => ~ In (key x) seen) l ->
  drop_duplicates_from key seen l = l.
Proof.
  revert seen. induction l as [|y l IH]; simpl; intros seen Hnd Hseen;
    [reflexivity|].
  apply NoDup_cons_iff in Hnd. destruct Hnd as [Hy Hnd].
  apply Forall_cons_iff in Hseen. destruct Hseen as [Hsy Hseen].
  destruct (existsb (key_eqb (key y)) seen) eqn:E.
  - apply existsb_exists in E. destruct E as (k & Hk & E).
    apply key_eqb_eq in E. subst k. contradiction.
  - f_equal. apply IH; [assumption|].
    rewrite Forall_forall in *. intros x Hx [Ex|Hs].
    + apply Hy. rewrite Ex. now apply in_map.
    + now apply (Hseen x Hx).
Qed.

Lemma dedup_by_unique (l : list R) :
  NoDup (map key l) -> dedup_by l = sort_values skey l.
Proof.
  intros Hnd. apply drop_duplicates_from_unique.
  - eapply Permutation_NoDup; [|exact Hnd].
    apply Permutation_map, sort_values_perm.
  - apply Forall_forall. intros x _ [].
Qed.
End DedupFacts.

(** ** Freshness selection (games and linescores) *)

Lemma key_eqb_Z (a b : Z) : key_eqb a b = Z.eqb a b.
Proof.
  destruct (Z.eqb a b) eqn:E.
  - apply Z.eqb_eq in E. subst. apply key_eqb_refl.
  - apply key_eqb_neq. now apply Z.eqb_neq.
Qed.

Lemma filter_map_comm {A B} (f : A -> B) (p : B -> bool) (l : list A) :
  filter p (map f l) = map f (filter (fun x => p (f x)) l).
Proof.
  induction l as [|x l IH]; simpl; [reflexivity|].
  rewrite IH. now destruct (p (f x)).
Qed.

(** C2.  Deduplication leaves exactly one row per natural key; that row is
    an input row of the key (so all its fields are that row's), no input
    row of the key has a later batch tag, and among the input rows of the
    key with that tag it is the first in input order.  For games the
    output row is that row without its tag. *)
Theorem dedup_keeps_latest_batch :
  (forall (df : list Games.Raw) (k : Z),
      (exists r0, In r0 df /\ Games.gamePk r0 = k) ->
      exists r,
        group_rows Games.gamePk k (Games.dedup df) = [r]
        /\ filter (fun g => Z.eqb (Games.out_gamePk g) k) (Games.process_games df)
           = [Games.drop_tag r]
        /\ In r df /\ Games.gamePk r = k
        /\ (forall r', In r' df -> Games.gamePk r' = k ->
              String.leb (Games.source_folder_date r')
                         (Games.source_folder_date r) = true)
        /\ exists pre post,
             df = pre ++ r :: post
             /\ Forall (fun x => ~ (Games.gamePk x = k
                                    /\ Games.source_folder_date x
                                       = Games.source_folder_date r)) pre)
  /\
  (forall (df : list Linescores.Raw) (k : Z * Z * string),
      (exists r0, In r0 df /\ Linescores.half_inning r0 = k) ->
      exists r,
        group_rows Linescores.half_inning k (Linescores.dedup df) = [r]
        /\ In r df /\ Linescores.half_inning r = k
        /\ (forall r', In r' df -> Linescores.half_inning r' = k ->
              String.leb (Linescores.source_folder_date r')
                         (Linescores.source_folder_date r) = true)
        /\ exists pre post,
             df = pre ++ r :: post
             /\ Forall (fun x => ~ (Linescores.half_inning x = k
                                    /\ Linescores.source_folder_date x
                                       = Linescores.source_folder_date r)) pre).
Proof.
  split; intros df k Hk.
  - destruct (dedup_by_survivor Games.gamePk Games.source_folder_date df k Hk)
      as (r & Hone & Hin & Hkey & Hlatest & Hfirst).
    exists r. repeat split; try assumption.
    unfold Games.process_games. rewrite filter_map_comm.
    change (Games.dedup df)
      with (drop_duplicates Games.gamePk
              (sort_values (fun r => (Games.gamePk r,
                                      desc (Games.source_folder_date r))) df)).
    unfold group_rows in Hone.
    erewrite filter_ext; [rewrite Hone; reflexivity|].
    intros x. simpl. symmetry. apply key_eqb_Z.
  - destruct (dedup_by_survivor Linescores.half_inning
                Linescores.source_folder_date df k Hk)
      as (r & Hone & Hin & Hkey & Hlatest & Hfirst).
    exists r. repeat split; assumption.
Qed.

Lemma dedup_keeps_latest_batch_witness :
  exists r,
    group_rows Games.gamePk 1 (Games.dedup Samples.games_repeated) = [r]
    /\ Games.fields r = [("status", "Live")].
Proof.
  destruct (proj1 dedup_keeps_latest_batch Samples.games_repeated 1)
    as (r & Hone & _).
  - eexists. split; [left; reflexivity | reflexivity].
  - exists r. split; [exact Hone|].
    vm_compute in Hone. injection Hone as <-. reflexivity.
Defined.

(** ** Idempotence of deduplication *)

(** C8 as stated fails: two rows with distinct keys, the larger key first,
    are unique per key and yet come back reordered. *)
Lemma dedup_unique_input_counterexample :
  ~ (forall df : list Games.Raw,
        NoDup (map Games.gamePk df) -> Games.dedup df = df).
Proof.
  intros Hclaim. specialize (Hclaim Samples.games_unsorted).
  assert (Hnd : NoDup (map Games.gamePk Samples.games_unsorted)).
  { simpl. repeat constructor; simpl; intuition discriminate. }
  specialize (Hclaim Hnd). vm_compute in Hclaim. discriminate.
Qed.

(** C8, amended.  Deduplicating again the result of a deduplication run
    changes nothing; more generally a frame whose keys strictly ascend
    (unique per key and in key order) is returned as it is, and a frame
    that is only unique per key is returned sorted, with the same rows. *)
Theorem dedup_idempotent :
  (forall df : list Games.Raw, Games.dedup (Games.dedup df) = Games.dedup df)
  /\ (forall df : list Games.Raw,
         strictly_ascending Games.gamePk df -> Games.dedup df = df)
  /\ (forall df : list Games.Raw,
         NoDup (map Games.gamePk df) ->
         Games.dedup df = sort_values Games.sort_key df
         /\ Permutation df (Games.dedup df)).
Proof.
  split; [|split].
  - intros df. apply (dedup_by_idempotent Games.gamePk Games.source_folder_date).
  - intros df. apply (dedup_by_fixed Games.gamePk Games.source_folder_date).
  - intros df Hnd.
    assert (E : Games.dedup df = sort_values Games.sort_key df)
      by exact (dedup_by_unique Games.gamePk Games.source_folder_date df Hnd).
    split; [exact E|].
    rewrite E. apply sort_values_perm.
Qed.

Lemma dedup_idempotent_witness :
  Games.dedup (rev Samples.games_unsorted) = rev Samples.games_unsorted.
Proof.
  apply (proj1 (proj2 dedup_idempotent)).
  unfold strictly_ascending. simpl.
  repeat constructor.
Defined.

(** ** The key of a movement segment *)

(** C3 as stated fails.  Legs [a] and [b] agree on the six fields with
    [originBase] as start base and both survive; legs [c] and [d] differ
    on [originBase] and only one survives. *)
Lemma origin_key_counterexample :
  let a := Samples.leg (Some "1B") (Some "1B") (Some "3B") false None in
  let b := Samples.leg (Some "1B") (Some "2B") (Some "3B") false None in
  let c := Samples.leg (Some "1B") (Some "1B") (Some "2B") false None in
  let d := Samples.leg None (Some "1B") (Some "2B") false None in
  (Runners.origin_key a = Runners.origin_key b
   /\ a <> b /\ Runners.dedup [a; b] = [a; b])
  /\ (Runners.origin_key c <> Runners.origin_key d
      /\ Runners.dedup [c; d] = [c]).
Proof.
  cbv zeta. repeat split; try reflexivity; discriminate.
Qed.

(** C3, amended.  Deduplication of segments is keyed on ([gamePk],
    [atBatIndex], [playIndex], [runnerid], [start], [end]), [start] being
    the raw [start] field: of the input segments of one key exactly one
    survives, so two input segments with the same key have the same
    survivor and two with different keys have different ones. *)
Theorem segment_dedup_keyed_on_start_end :
  forall (df : list Runners.Raw.t) (a b : Runners.Raw.t),
    In a df -> In b df ->
    exists ra rb,
      group_rows Runners.segment_key (Runners.segment_key a) (Runners.dedup df) = [ra]
      /\ group_rows Runners.segment_key (Runners.segment_key b) (Runners.dedup df) = [rb]
      /\ In ra df /\ In rb df
      /\ (Runners.segment_key a = Runners.segment_key b -> ra = rb)
      /\ (Runners.segment_key a <> Runners.segment_key b -> ra <> rb).
Proof.
  intros df a b Ha Hb.
  destruct (dedup_by_survivor Runners.segment_key Runners.Raw.source_folder_date
              df (Runners.segment_key a)) as (ra & Ga & Hra & Ka & _);
    [now exists a|].
  destruct (dedup_by_survivor Runners.segment_key Runners.Raw.source_folder_date
              df (Runners.segment_key b)) as (rb & Gb & Hrb & Kb & _);
    [now exists b|].
  exists ra, rb. repeat split; try assumption.
  - intros E. rewrite E in Ga.
    change (Runners.dedup df)
      with (drop_duplicates Runners.segment_key
              (sort_values (fun r => (Runners.segment_key r,
                                      desc (Runners.Raw.source_folder_date r))) df)).
    congruence.
  - intros Hne E. subst rb. congruence.
Qed.

Lemma segment_dedup_keyed_on_start_end_witness :
  let a := Samples.leg (Some "1B") (Some "1B") (Some "3B") false None in
  let b := Samples.leg (Some "1B") (Some "2B") (Some "3B") false None in
  exists ra rb,
    group_rows Runners.segment_key (Runners.segment_key a) (Runners.dedup [a; b; a]) = [ra]
    /\ group_rows Runners.segment_key (Runners.segment_key b) (Runners.dedup [a; b; a]) = [rb]
    /\ ra <> rb.
Proof.
  intros a b.
  destruct (segment_dedup_keyed_on_start_end [a; b; a] a b)
    as (ra & rb & Ga & Gb & _ & _ & _ & Hne).
  - left; reflexivity.
  - right; left; reflexivity.
  - exists ra, rb. repeat split; try assumption.
    apply Hne. discriminate.
Defined.

(** ** Aggregation of the segments of a play *)

Lemma groupby_In {R K} `{CmpLaws K} (col : R -> K) (l : list R) (r : R) (g : list R) :
  In (r, g) (groupby col l) -> r :: g = group_rows col (col r) l.
Proof.
  unfold groupby. rewrite in_flat_map. intros (r0 & _ & Hin).
  destruct (group_rows col (col r0) l) as [|r' g'] eqn:G; simpl in Hin;
    [contradiction|].
  destruct Hin as [[= -> ->]|[]].
  assert (Hr : In r (group_rows col (col r0) l)) by (rewrite G; now left).
  apply group_rows_In in Hr. destruct Hr as [_ ->]. now rewrite G.
Qed.

(** Every output row is the aggregate of one group of the ordered frame. *)
Lemma process_runner_play_In (df : list Runners.Raw.t) (p : Runners.Play) :
  In p (Runners.process_runner_play df) ->
  exists first rest,
    first :: rest
    = group_rows Runners.play_runner (Runners.play_runner first) (Runners.ordered df)
    /\ p = Runners.flags (Runners.agg (first, rest)).
Proof.
  unfold Runners.process_runner_play. rewrite in_map_iff.
  intros ([first rest] & <- & Hin).
  exists first, rest. split; [|reflexivity].
  now apply groupby_In.
Qed.

Lemma calculate_reached_base_last_safe
      (first : Runners.Seg.t) (rest pre post : list Runners.Seg.t)
      (s : Runners.Seg.t) :
  first :: rest = pre ++ s :: post ->
  Runners.Seg.is_out s = false ->
  Forall (fun x => Runners.Seg.is_out x = true) post ->
  Runners.calculate_reached_base first rest = Runners.Seg.endbase s.
Proof.
  intros E Hs Hpost. unfold Runners.calculate_reached_base. rewrite E.
  rewrite filter_app. simpl. rewrite Hs. simpl.
  rewrite (filter_none _ post).
  - destruct (filter _ pre) as [|x t]; simpl; [reflexivity|].
    now rewrite last_last.
  - eapply Forall_impl; [|exact Hpost]. simpl. now intros x ->.
Qed.

Lemma calculate_reached_base_never_safe
      (first : Runners.Seg.t) (rest : list Runners.Seg.t) :
  Forall (fun x => Runners.Seg.is_out x = true) (first :: rest) ->
  Runners.calculate_reached_base first rest = Runners.Seg.startbase first.
Proof.
  intros Hout. unfold Runners.calculate_reached_base.
  rewrite filter_none; [reflexivity|].
  eapply Forall_impl; [|exact Hout]. simpl. now intros x ->.
Qed.

(** C5.  Every output row comes from a non-empty group of segments sharing
    its play key, taken in the processing order of the frame; its
    [reachedbase] is the end base of the last segment of the group that is
    not out, and its own [startbase] when every segment is out. *)
Theorem reachedbase_last_safe_or_startbase :
  forall (df : list Runners.Raw.t) (p : Runners.Play),
    In p (Runners.process_runner_play df) ->
    exists first rest,
      first :: rest
      = group_rows Runners.play_runner (Runners.play_runner first) (Runners.ordered df)
      /\ Runners.play_runner first
         = (Runners.Merged.gamepk (Runners.merged p),
            Runners.Merged.atbatindex (Runners.merged p),
            Runners.Merged.playindex (Runners.merged p),
            Runners.Merged.runnerid (Runners.merged p))
      /\ Runners.Merged.startbase (Runners.merged p) = Runners.Seg.startbase first
      /\ (forall pre s post,
            first :: rest = pre ++ s :: post ->
            Runners.Seg.is_out s = false ->
            Forall (fun x => Runners.Seg.is_out x = true) post ->
            Runners.Merged.reachedbase (Runners.merged p) = Runners.Seg.endbase s)
      /\ (Forall (fun x => Runners.Seg.is_out x = true) (first :: rest) ->
          Runners.Merged.reachedbase (Runners.merged p)
          = Runners.Merged.startbase (Runners.merged p)).
Proof.
  intros df p Hp.
  destruct (process_runner_play_In df p Hp) as (first & rest & Hg & ->).
  exists first, rest. simpl. repeat split; try assumption.
  - intros pre s post. apply calculate_reached_base_last_safe.
  - apply calculate_reached_base_never_safe.
Qed.

Lemma reachedbase_last_safe_or_startbase_witness :
  let out1 := Samples.leg (Some "1B") (Some "1B") (Some "2B") true None in
  let out2 := Samples.leg (Some "1B") (Some "2B") (Some "3B") true None in
  exists p,
    In p (Runners.process_runner_play [out1; out2])
    /\ Runners.Merged.reachedbase (Runners.merged p)
       = Runners.Merged.startbase (Runners.merged p).
Proof.
  intros out1 out2.
  eexists. split; [left; reflexivity|].
  destruct (reachedbase_last_safe_or_startbase [out1; out2] _
              (or_introl eq_refl)) as (first & rest & Hg & Hk & _ & _ & Hall).
  apply Hall. rewrite Hg, Hk. vm_compute. repeat constructor.
Defined.

(** C4, at the failing input.  A batter's two legs, home to first and
    first to second, are given in the order they happened; the leg with
    the missing [start] sorts last, so the merged row ends at first base
    and not at second. *)
Theorem batter_legs_merged_out_of_order :
  let legs := [Samples.leg None None (Some "1B") false (Some "double");
               Samples.leg None (Some "1B") (Some "2B") false (Some "double")] in
  Runners.chained legs
  /\ map Runners.Raw.end_ legs = [Some "1B"; Some "2B"]
  /\ map (fun p => (Runners.Merged.startbase (Runners.merged p),
                    Runners.Merged.endbase (Runners.merged p),
                    Runners.Merged.reachedbase (Runners.merged p)))
         (Runners.process_runner_play legs)
     = [("B", "1B", "1B")].
Proof.
  cbv zeta. repeat split.
Qed.

(** ** Derived flags *)

Lemma prefix_spec (p s : string) :
  String.prefix p s = true <-> exists post, s = (p ++ post)%string.
Proof.
  revert s. induction p as [|a p IH]; intros s; simpl.
  - split; [now exists s | now destruct s].
  - destruct s as [|b s]; simpl.
    + split; [discriminate | intros (post & E); discriminate].
    + destruct (ascii_dec a b) as [->|Hne].
      * rewrite IH. split; intros (post & E); exists post; congruence.
      * split; [discriminate|]. intros (post & E). congruence.
Qed.

Lemma str_contains_unfold (pat s : string) :
  str_contains pat s
  = if String.prefix pat s then true
    else match s with
         | EmptyString => false
         | String _ s' => str_contains pat s'
         end.
Proof. now destruct s. Qed.

(** [str_contains] decides the occurrence of the pattern. *)
Lemma str_contains_spec (pat s : string) :
  str_contains pat s = true <-> Substring pat s.
Proof.
  unfold Substring. split.
  - induction s as [|c s IH]; rewrite str_contains_unfold;
      destruct (String.prefix pat _) eqn:E; try discriminate.
    + intros _. apply prefix_spec in E. destruct E as (post & E).
      now exists "", post.
    + intros _. apply prefix_spec in E. destruct E as (post & E).
      now exists "", post.
    + intros Hc. destruct (IH Hc) as (pre & post & ->).
      now exists (String c pre), post.
  - intros (pre & post & ->).
    induction pre as [|c pre IH]; rewrite str_contains_unfold.
    + assert (E : String.prefix pat (pat ++ post) = true)
        by (apply prefix_spec; now exists post).
      simpl. now rewrite E.
    + simpl (String c pre ++ _)%string. cbv iota. rewrite IH.
      now destruct (String.prefix pat _).
Qed.

(** C7.  On every output row, [is_firsttothird] holds exactly when the
    row starts at 1B, reaches 3B, has no event type in which [home_run]
    occurs, and is not out; [is_risp] holds exactly when it starts at 2B
    or 3B; so a first-to-third row is never a scoring-position row. *)
Theorem is_firsttothird_spec :
  forall (df : list Runners.Raw.t) (p : Runners.Play),
    In p (Runners.process_runner_play df) ->
    let m := Runners.merged p in
    (Runners.is_firsttothird p = true <->
       Runners.Merged.startbase m = "1B"
       /\ Runners.Merged.reachedbase m = "3B"
       /\ (forall ev, Runners.Merged.eventtype m = Some ev ->
                      ~ Substring "home_run" ev)
       /\ Runners.Merged.is_out m = false)
    /\ (Runners.is_risp p = true <->
          Runners.Merged.startbase m = "2B" \/ Runners.Merged.startbase m = "3B")
    /\ (Runners.is_firsttothird p = true -> Runners.is_risp p = false).
Proof.
  intros df p Hp.
  destruct (process_runner_play_In df p Hp) as (first & rest & _ & ->).
  generalize (Runners.agg (first, rest)). clear. intros m. simpl.
  assert (Hev : negb (contains_na_false "home_run" (Runners.Merged.eventtype m)) = true
                <-> forall ev, Runners.Merged.eventtype m = Some ev ->
                               ~ Substring "home_run" ev).
  { destruct (Runners.Merged.eventtype m) as [ev|]; simpl.
    - rewrite negb_true_iff, <- not_true_iff_false, str_contains_spec.
      split; [intros Hn ev' [= <-]; exact Hn | intros Hn; now apply Hn].
    - split; [discriminate | reflexivity]. }
  assert (Hout : Bool.eqb (Runners.Merged.is_out m) false = true
                 <-> Runners.Merged.is_out m = false)
    by (destruct (Runners.Merged.is_out m); simpl; split; congruence).
  split; [|split].
  - rewrite !andb_true_iff, !String.eqb_eq, Hev, Hout. tauto.
  - rewrite orb_false_r, orb_true_iff, !String.eqb_eq. tauto.
  - rewrite !andb_true_iff, String.eqb_eq. intros (((E & _) & _) & _).
    now rewrite E.
Qed.

Lemma is_firsttothird_spec_witness :
  let legs := [Samples.leg (Some "1B") (Some "1B") (Some "2B") false (Some "single");
               Samples.leg (Some "1B") (Some "2B") (Some "3B") false (Some "field_error")] in
  exists p,
    In p (Runners.process_runner_play legs)
    /\ Runners.is_firsttothird p = true /\ Runners.is_risp p = false.
Proof.
  intros legs.
  eexists. split; [left; reflexivity|].
  destruct (is_firsttothird_spec legs _ (or_introl eq_refl)) as (_ & _ & Hx).
  split; [reflexivity|]. apply Hx. reflexivity.
Defined.

(** ** Missing event types *)

Lemma uniq_join_keep_dups_missing (s : list (option string)) :
  Forall (fun v => v = None \/ v = Some "") s ->
  Runners.uniq_join_keep_dups s = None.
Proof.
  intros Hs. unfold Runners.uniq_join_keep_dups.
  assert (E : filter (fun v => negb (String.eqb v "")) (dropna s) = []).
  { induction Hs as [|v s [->| ->] _ IH]; simpl; auto. }
  now rewrite E.
Qed.

(** C10.  When every segment of a group has a missing or empty event
    type, the merged event type is missing; a row whose event type is
    missing passes the home-run exclusion, so its two advance flags are
    decided by the bases and [is_out] alone; and there are such groups,
    1B to 3B and 2B to home, whose flag is set. *)
Theorem missing_eventtype_passes_home_run_exclusion :
  (forall (df : list Runners.Raw.t) (p : Runners.Play),
      In p (Runners.process_runner_play df) ->
      exists first rest,
        first :: rest
        = group_rows Runners.play_runner (Runners.play_runner first)
                     (Runners.ordered df)
        /\ (Forall (fun s => Runners.Seg.eventtype s = None
                             \/ Runners.Seg.eventtype s = Some "")
                   (first :: rest) ->
            Runners.Merged.eventtype (Runners.merged p) = None)
        /\ (Runners.Merged.eventtype (Runners.merged p) = None ->
            Runners.is_firsttothird p
            = (String.eqb (Runners.Merged.startbase (Runners.merged p)) "1B"
               && String.eqb (Runners.Merged.reachedbase (Runners.merged p)) "3B"
               && negb (Runners.Merged.is_out (Runners.merged p)))
            /\ Runners.is_secondtohome p
               = (String.eqb (Runners.Merged.startbase (Runners.merged p)) "2B"
                  && String.eqb (Runners.Merged.reachedbase (Runners.merged p)) "HM"
                  && negb (Runners.Merged.is_out (Runners.merged p)))))
  /\ (let legs := [Samples.leg (Some "1B") (Some "1B") (Some "2B") false None;
                   Samples.leg (Some "1B") (Some "2B") (Some "3B") false (Some "")] in
      exists p,
        In p (Runners.process_runner_play legs)
        /\ Runners.Merged.eventtype (Runners.merged p) = None
        /\ Runners.Merged.startbase (Runners.merged p) = "1B"
        /\ Runners.Merged.reachedbase (Runners.merged p) = "3B"
        /\ Runners.Merged.is_out (Runners.merged p) = false
        /\ Runners.is_firsttothird p = true)
  /\ (let legs := [Samples.leg (Some "2B") (Some "2B") (Some "3B") false None;
                   Samples.leg (Some "2B") (Some "3B") (Some "score") false None] in
      exists p,
        In p (Runners.process_runner_play legs)
        /\ Runners.Merged.eventtype (Runners.merged p) = None
        /\ Runners.Merged.startbase (Runners.merged p) = "2B"
        /\ Runners.Merged.reachedbase (Runners.merged p) = "HM"
        /\ Runners.Merged.is_out (Runners.merged p) = false
        /\ Runners.is_secondtohome p = true).
Proof.
  split; [|split].
  - intros df p Hp.
    destruct (process_runner_play_In df p Hp) as (first & rest & Hg & ->).
    exists first, rest. split; [assumption|]. split.
    + intros Hall. simpl. apply uniq_join_keep_dups_missing.
      change (Forall (fun v => v = None \/ v = Some "")
                     (map Runners.Seg.eventtype (first :: rest))).
      now apply Forall_map.
    + generalize (Runners.agg (first, rest)). intros m. simpl. intros ->.
      simpl. rewrite !andb_true_r.
      now destruct (Runners.Merged.is_out m).
  - cbv zeta. eexists. split; [left; reflexivity|]. repeat split.
  - cbv zeta. eexists. split; [left; reflexivity|]. repeat split.
Qed.

Lemma missing_eventtype_passes_home_run_exclusion_witness :
  let legs := [Samples.leg (Some "1B") (Some "1B") (Some "2B") false None;
               Samples.leg (Some "1B") (Some "2B") (Some "3B") false (Some "")] in
  exists p,
    In p (Runners.process_runner_play legs)
    /\ exists first rest,
        first :: rest
        = group_rows Runners.play_runner (Runners.play_runner first)
                     (Runners.ordered legs)
        /\ (Forall (fun s => Runners.Seg.eventtype s = None
                             \/ Runners.Seg.eventtype s = Some "")
                   (first :: rest) ->
            Runners.Merged.eventtype (Runners.merged p) = None)
        /\ (Runners.Merged.eventtype (Runners.merged p) = None ->
            Runners.is_firsttothird p
            = (String.eqb (Runners.Merged.startbase (Runners.merged p)) "1B"
               && String.eqb (Runners.Merged.reachedbase (Runners.merged p)) "3B"
               && negb (Runners.Merged.is_out (Runners.merged p)))
            /\ Runners.is_secondtohome p
               = (String.eqb (Runners.Merged.startbase (Runners.merged p)) "2B"
                  && String.eqb (Runners.Merged.reachedbase (Runners.merged p)) "HM"
                  && negb (Runners.Merged.is_out (Runners.merged p)))).
Proof.
  intros legs.
  eexists. split; [left; reflexivity|].
  apply (proj1 missing_eventtype_passes_home_run_exclusion legs).
  left. reflexivity.
Defined.

(** ** Grouped running sums *)

Lemma nth_error_middle {A} (pre : list A) (x : A) (post : list A) :
  nth_error (pre ++ x :: post) (List.length pre) = Some x.
Proof. induction pre as [|y pre IH]; simpl; auto. Qed.

(** ** Machine numbers within range *)

Arguments wrap64 : simpl never.
Arguments float64_of_int : simpl never.
Arguments int64_of_float : simpl never.

Lemma wrap64_small (z : Z) : - 2 ^ 63 <= z < 2 ^ 63 -> wrap64 z = z.
Proof.
  unfold wrap64.
  change (2 ^ 64) with 18446744073709551616.
  change (2 ^ 63) with 9223372036854775808.
  intros Hz. rewrite Z.mod_small; lia.
Qed.

(** Up to [2^53] in magnitude an integer survives the passage through
    [float64]. *)
Lemma float64_round_trip (z : Z) :
  Z.abs z <= 2 ^ 53 -> int64_of_float (float64_of_int z) = z.
Proof.
  intros Hz.
  pose proof (eq_refl : 2 ^ 53 = 9007199254740992) as P53.
  pose proof (eq_refl : 2 ^ 63 = 9223372036854775808) as P63.
  unfold float64_of_int, int64_of_float. cbv zeta.
  rewrite (proj2 (Z.leb_le (Z.abs z) (2 ^ 53))) by assumption.
  rewrite (proj2 (Z.leb_le (- 2 ^ 63) z)) by lia.
  rewrite (proj2 (Z.ltb_lt z (2 ^ 63))) by lia.
  reflexivity.
Qed.

Section GroupFacts.
Context {R K : Type} `{CmpLaws K}.
Variable col : R -> K.
Variable val : R -> Z.

Lemma group_cumsum_from_length (st : list (K * Z)) (l : list R) :
  List.length (group_cumsum_from col st l (map val l)) = List.length l.
Proof.
  revert st. induction l as [|x l IH]; intros st; simpl; [reflexivity|].
  now rewrite IH.
Qed.

Lemma group_shift_from_length (st : list (K * Z)) (l : list R) (vals : list Z) :
  List.length vals = List.length l ->
  List.length (group_shift_from col st l vals) = List.length l.
Proof.
  revert st vals. induction l as [|x l IH]; intros st [|v vals]; simpl;
    try discriminate; auto.
Qed.

Lemma sumZ_abs_nonneg (l : list R) :
  0 <= sumZ (map (fun x => Z.abs (val x)) l).
Proof. induction l as [|x l IH]; simpl; lia. Qed.

Lemma sumZ_abs_bound (l : list R) :
  Z.abs (sumZ (map val l)) <= sumZ (map (fun x => Z.abs (val x)) l).
Proof. induction l as [|x l IH]; simpl; lia. Qed.

Lemma sumZ_abs_filter (p : R -> bool) (l : list R) :
  sumZ (map (fun x => Z.abs (val x)) (filter p l))
  <= sumZ (map (fun x => Z.abs (val x)) l).
Proof.
  induction l as [|x l IH]; simpl; [lia|]. destruct (p x); simpl; lia.
Qed.

Lemma sumZ_abs_app (l1 l2 : list R) :
  sumZ (map (fun x => Z.abs (val x)) (l1 ++ l2))
  = sumZ (map (fun x => Z.abs (val x)) l1)
    + sumZ (map (fun x => Z.abs (val x)) l2).
Proof. induction l1 as [|x l1 IH]; simpl; lia. Qed.

(** The shifted running sum at a row, while the group's magnitude stays
    within [2^53]: what its group had before the frame plus the group's
    earlier rows. *)
Lemma shifted_cumsum_from_nth (st : list (K * Z)) (pre : list R) (r : R)
      (post : list R) :
  Z.abs (fillna0 (assoc_get (col r) st))
  + sumZ (map (fun x => Z.abs (val x)) (group_rows col (col r) pre)) <= 2 ^ 53 ->
  nth_error
    (map shifted_fillna0
         (group_shift_from col st (pre ++ r :: post)
            (group_cumsum_from col st (pre ++ r :: post)
                               (map val (pre ++ r :: post)))))
    (List.length pre)
  = Some (fillna0 (assoc_get (col r) st)
          + sumZ (map val (group_rows col (col r) pre))).
Proof.
  revert st. induction pre as [|x pre IH]; intros st Hb;
    change (2 ^ 53) with 9007199254740992 in Hb.
  - simpl in *. f_equal.
    destruct (assoc_get (col r) st) as [g|]; simpl in *; [|reflexivity].
    rewrite float64_round_trip
      by (change (2 ^ 53) with 9007199254740992; lia).
    lia.
  - assert (Hnn := sumZ_abs_nonneg (group_rows col (col r) pre)).
    unfold group_rows in Hb, Hnn |- *. simpl in Hb |- *.
    destruct (key_eqb (col x) (col r)) eqn:E.
    + apply key_eqb_eq in E. rewrite E in *. simpl in Hb |- *.
      change (match assoc_get (col r) st with Some a => a | None => 0 end)
        with (fillna0 (assoc_get (col r) st)).
      rewrite wrap64_small
        by (change (2 ^ 63) with 9223372036854775808; lia).
      rewrite IH.
      * simpl. rewrite key_eqb_refl. simpl. f_equal.
        unfold group_rows. lia.
      * simpl. rewrite key_eqb_refl. simpl.
        change (2 ^ 53) with 9007199254740992. unfold group_rows. lia.
    + rewrite IH.
      * simpl. now rewrite (key_eqb_sym (col r) (col x)), E.
      * simpl. now rewrite (key_eqb_sym (col r) (col x)), E.
Qed.
End GroupFacts.

(** ** Linescores: running scores *)

Lemma with_columns_nth (df : list (Linescores.Row Z)) (cb ct bs ts : list Z)
      (i : nat) (r : Linescores.Row Z) (a b s t : Z) :
  nth_error df i = Some r -> nth_error cb i = Some a ->
  nth_error ct i = Some b -> nth_error bs i = Some s ->
  nth_error ts i = Some t ->
  nth_error (Linescores.with_columns df cb ct bs ts) i
  = Some (Linescores.mkWork r a b s t (wrap64 (s - wrap64 (t - s)))).
Proof.
  revert df cb ct bs ts.
  induction i as [|i IH]; intros [|r' df] [|a' cb] [|b' ct] [|s' bs] [|t' ts];
    simpl; try discriminate.
  - now intros [= ->] [= ->] [= ->] [= ->] [= ->].
  - apply IH.
Qed.

Lemma with_columns_rows (df : list (Linescores.Row Z)) (cb ct bs ts : list Z) :
  List.length cb = List.length df -> List.length ct = List.length df ->
  List.length bs = List.length df -> List.length ts = List.length df ->
  map Linescores.row (Linescores.with_columns df cb ct bs ts) = df.
Proof.
  revert cb ct bs ts.
  induction df as [|r df IH]; intros [|a cb] [|b ct] [|s bs] [|t ts];
    simpl; try discriminate; auto.
  intros [= H1] [= H2] [= H3] [= H4]. f_equal. now apply IH.
Qed.

Lemma derive_rows (df : list (Linescores.Row Z)) :
  map Linescores.row (Linescores.derive df) = df.
Proof.
  unfold Linescores.derive, group_cumsum, group_shift.
  apply with_columns_rows;
    rewrite ?length_map, ?group_shift_from_length, ?group_cumsum_from_length;
    auto using group_cumsum_from_length.
Qed.

Lemma same_batting_team_key (r x : Linescores.Row Z) :
  key_eqb (Linescores.batting_team x) (Linescores.batting_team r)
  = Linescores.same_batting_team r x.
Proof.
  unfold Linescores.same_batting_team, Linescores.batting_team.
  destruct (Z.eqb_spec (Linescores.gamePk x) (Linescores.gamePk r)) as [E1|E1];
    destruct (Z.eqb_spec (Linescores.battingteamid x) (Linescores.battingteamid r))
      as [E2|E2]; simpl.
  - rewrite E1, E2. apply key_eqb_refl.
  - apply key_eqb_neq. congruence.
  - apply key_eqb_neq. congruence.
  - apply key_eqb_neq. congruence.
Qed.

Lemma same_game_key (r x : Linescores.Row Z) :
  key_eqb (Linescores.game x) (Linescores.game r) = Linescores.same_game r x.
Proof. apply key_eqb_Z. Qed.

(** The frame of line 101 is the deduplicated frame with [runs]
    normalised: its half-innings strictly ascend, so the second sort
    leaves it as it is. *)
Lemma chronological_strict (df : list Linescores.Raw) :
  strictly_ascending Linescores.half_inning
                     (map Linescores.normalize_runs (Linescores.dedup df)).
Proof.
  pose proof (dedup_by_strict Linescores.half_inning
                Linescores.source_folder_date df) as Hs.
  change (strictly_ascending Linescores.half_inning (Linescores.dedup df)) in Hs.
  unfold strictly_ascending in *.
  induction Hs as [|x l Hs IH Hx]; simpl; constructor; [assumption|].
  now apply Forall_map.
Qed.

Lemma chronological_eq (df : list Linescores.Raw) :
  Linescores.chronological df
  = map Linescores.normalize_runs (Linescores.dedup df).
Proof.
  unfold Linescores.chronological. apply sort_values_id.
  apply strictly_ascending_ascending, chronological_strict.
Qed.

Lemma runs_before_batting_team (r : Linescores.Row Z) (pre : list (Linescores.Row Z)) :
  sumZ (map Linescores.runs
            (group_rows Linescores.batting_team (Linescores.batting_team r) pre))
  = Linescores.runs_before (Linescores.same_batting_team r) pre.
Proof.
  unfold Linescores.runs_before, group_rows. do 2 f_equal.
  apply filter_ext. intros x. apply same_batting_team_key.
Qed.

Lemma runs_before_game (r : Linescores.Row Z) (pre : list (Linescores.Row Z)) :
  sumZ (map Linescores.runs
            (group_rows Linescores.game (Linescores.game r) pre))
  = Linescores.runs_before (Linescores.same_game r) pre.
Proof.
  unfold Linescores.runs_before, group_rows. do 2 f_equal.
  apply filter_ext. intros x. apply same_game_key.
Qed.

Lemma runs_before_bound (p : Linescores.Row Z -> bool)
      (pre : list (Linescores.Row Z)) :
  Z.abs (Linescores.runs_before p pre) <= Linescores.magnitude pre.
Proof.
  unfold Linescores.runs_before, Linescores.magnitude.
  pose proof (sumZ_abs_bound Linescores.runs (filter p pre)).
  pose proof (sumZ_abs_filter Linescores.runs p pre). lia.
Qed.

Lemma group_magnitude_bound {K : Type} `{Cmp K} (col : Linescores.Row Z -> K)
      (k : K) (pre : list (Linescores.Row Z)) :
  sumZ (map (fun x => Z.abs (Linescores.runs x)) (group_rows col k pre))
  <= Linescores.magnitude pre.
Proof. apply sumZ_abs_filter. Qed.

Lemma magnitude_prefix (pre : list (Linescores.Row Z)) (r : Linescores.Row Z)
      (post : list (Linescores.Row Z)) :
  Linescores.magnitude pre <= Linescores.magnitude (pre ++ r :: post).
Proof.
  unfold Linescores.magnitude. rewrite sumZ_abs_app.
  pose proof (sumZ_abs_nonneg Linescores.runs (r :: post)). lia.
Qed.

(** The derived columns at one row of the frame, in terms of the rows
    before it, while their magnitude stays within [2^53]. *)
Lemma derive_nth (pre : list (Linescores.Row Z)) (r : Linescores.Row Z)
      (post : list (Linescores.Row Z)) :
  Linescores.magnitude pre <= 2 ^ 53 ->
  let bs := Linescores.runs_before (Linescores.same_batting_team r) pre in
  let ts := Linescores.runs_before (Linescores.same_game r) pre in
  exists cb ct,
    nth_error (Linescores.derive (pre ++ r :: post)) (List.length pre)
    = Some (Linescores.mkWork r cb ct bs ts (bs - (ts - bs))).
Proof.
  intros Hm bs ts. unfold Linescores.derive, group_cumsum, group_shift.
  set (l := pre ++ r :: post).
  assert (Hlen : (List.length pre < List.length l)%nat)
    by (unfold l; rewrite length_app; simpl; lia).
  destruct (nth_error (group_cumsum_from Linescores.batting_team [] l
                         (map Linescores.runs l)) (List.length pre))
    as [cb|] eqn:Ecb.
  2:{ apply nth_error_None in Ecb.
      rewrite group_cumsum_from_length in Ecb. lia. }
  destruct (nth_error (group_cumsum_from Linescores.game [] l
                         (map Linescores.runs l)) (List.length pre))
    as [ct|] eqn:Ect.
  2:{ apply nth_error_None in Ect.
      rewrite group_cumsum_from_length in Ect. lia. }
  exists cb, ct.
  pose proof (runs_before_bound (Linescores.same_batting_team r) pre) as Bbs.
  pose proof (runs_before_bound (Linescores.same_game r) pre) as Bts.
  fold bs in Bbs. fold ts in Bts.
  change (2 ^ 53) with 9007199254740992 in Hm.
  replace (bs - (ts - bs)) with (wrap64 (bs - wrap64 (ts - bs))).
  2:{ rewrite (wrap64_small (ts - bs))
        by (change (2 ^ 63) with 9223372036854775808; lia).
      apply wrap64_small. change (2 ^ 63) with 9223372036854775808. lia. }
  apply with_columns_nth; try assumption.
  - apply nth_error_middle.
  - unfold l. rewrite shifted_cumsum_from_nth.
    + cbn [assoc_get fillna0]. now rewrite Z.add_0_l, runs_before_batting_team.
    + cbn [assoc_get fillna0].
      pose proof (group_magnitude_bound Linescores.batting_team
                    (Linescores.batting_team r) pre).
      change (2 ^ 53) with 9007199254740992. lia.
  - unfold l. rewrite shifted_cumsum_from_nth.
    + cbn [assoc_get fillna0]. now rewrite Z.add_0_l, runs_before_game.
    + cbn [assoc_get fillna0].
      pose proof (group_magnitude_bound Linescores.game (Linescores.game r) pre).
      change (2 ^ 53) with 9007199254740992. lia.
Qed.

(** C1 as stated fails beyond [2^53]: the shifted cumulative sum passes
    through [float64], so after a half-inning of [2^53 + 1] runs the
    team's next [battingteam_score] is [2^53], not the sum of the earlier
    runs. *)
Lemma float64_score_counterexample :
  let df := [Linescores.mkRow 1 1 "TOP" 141 (Some 9007199254740993) "2025-04-01";
             Linescores.mkRow 1 2 "TOP" 141 (Some 1) "2025-04-01"] in
  let pre := [Linescores.mkRow 1 1 "TOP" 141 9007199254740993 "2025-04-01"] in
  let r := Linescores.mkRow 1 2 "TOP" 141 1 "2025-04-01" in
  Linescores.chronological df = pre ++ [r]
  /\ Linescores.runs_before (Linescores.same_batting_team r) pre
     = 9007199254740993
  /\ nth_error (Linescores.process_linescores df) 1
     = Some (Linescores.mkOut 1 2 "TOP" 141 1
                              9007199254740992 9007199254740992).
Proof.
  cbv zeta. repeat split; vm_compute; reflexivity.
Qed.

(** C1, amended.  The frame the scores are computed on is deduplicated
    and sorted by ([gamePk], [inning], [half]).  At each of its rows
    before which the [runs] total at most [2^53] in magnitude,
    [battingteam_score] is the sum of [runs] over the strictly earlier
    rows of the same ([gamePk], [battingteamid]), [total_score] the sum
    over the strictly earlier rows of the same [gamePk] (both 0 when there
    is no such row), and [battingteam_score_diff] is
    [battingteam_score - (total_score - battingteam_score)]; the output
    row carries these values.  On the three-row scenario the third row has
    score 2 and difference 2. *)
Theorem scores_before_half_inning :
  (forall df : list Linescores.Raw,
      strictly_ascending Linescores.half_inning (Linescores.chronological df))
  /\ (forall (df : list Linescores.Raw) (pre : list (Linescores.Row Z))
             (r : Linescores.Row Z) (post : list (Linescores.Row Z)),
         Linescores.chronological df = pre ++ r :: post ->
         Linescores.magnitude pre <= 2 ^ 53 ->
         exists w o,
           nth_error (Linescores.work df) (List.length pre) = Some w
           /\ nth_error (Linescores.process_linescores df) (List.length pre) = Some o
           /\ Linescores.row w = r
           /\ Linescores.battingteam_score w
              = Linescores.runs_before (Linescores.same_batting_team r) pre
           /\ Linescores.total_score w
              = Linescores.runs_before (Linescores.same_game r) pre
           /\ Linescores.battingteam_score_diff w
              = Linescores.battingteam_score w
                - (Linescores.total_score w - Linescores.battingteam_score w)
           /\ (Forall (fun x => Linescores.same_batting_team r x = false) pre ->
               Linescores.battingteam_score w = 0)
           /\ (Forall (fun x => Linescores.same_game r x = false) pre ->
               Linescores.total_score w = 0)
           /\ Linescores.out_battingteam_score o = Linescores.battingteam_score w
           /\ Linescores.out_battingteam_score_diff o
              = Linescores.battingteam_score_diff w)
  /\ (let A := 141 in
      let B := 147 in
      let df := [Linescores.mkRow 1 1 "TOP" A (Some 2) "2025-04-01";
                 Linescores.mkRow 1 1 "BOT" B (Some 0) "2025-04-01";
                 Linescores.mkRow 1 2 "TOP" A (Some 1) "2025-04-01"] in
      nth_error (Linescores.work df) 2
      = Some (Linescores.mkWork
                (Linescores.mkRow 1 2 "TOP" A 1 "2025-04-01") 3 3 2 2 2)
      /\ nth_error (Linescores.process_linescores df) 2
         = Some (Linescores.mkOut 1 2 "TOP" A 1 2 2)).
Proof.
  split; [|split].
  - intros df. rewrite chronological_eq. apply chronological_strict.
  - intros df pre r post E Hm.
    destruct (derive_nth pre r post Hm) as (cb & ct & Hw).
    unfold Linescores.work, Linescores.process_linescores, Linescores.work.
    rewrite E.
    eexists. eexists. split; [exact Hw|].
    split; [apply map_nth_error; exact Hw|].
    simpl. repeat split.
    + intros Hnone. unfold Linescores.runs_before.
      now rewrite filter_none.
    + intros Hnone. unfold Linescores.runs_before.
      now rewrite filter_none.
  - cbv zeta. split; vm_compute; reflexivity.
Qed.

Lemma scores_before_half_inning_witness :
  let df := [Linescores.mkRow 1 1 "TOP" 141 (Some 2) "2025-04-01";
             Linescores.mkRow 1 1 "BOT" 147 (Some 0) "2025-04-01";
             Linescores.mkRow 1 2 "TOP" 141 (Some 1) "2025-04-01"] in
  let pre := [Linescores.mkRow 1 1 "BOT" 147 0 "2025-04-01";
              Linescores.mkRow 1 1 "TOP" 141 2 "2025-04-01"] in
  let r := Linescores.mkRow 1 2 "TOP" 141 1 "2025-04-01" in
  Linescores.chronological df = pre ++ [r]
  /\ Linescores.magnitude pre <= 2 ^ 53
  /\ exists w,
      nth_error (Linescores.work df) 2 = Some w
      /\ Linescores.battingteam_score w = 2
      /\ Linescores.total_score w = 2
      /\ Linescores.battingteam_score_diff w = 2.
Proof.
  intros df pre r.
  assert (Hm : Linescores.magnitude pre <= 2 ^ 53) by (vm_compute; discriminate).
  split; [reflexivity|]. split; [exact Hm|].
  destruct (proj1 (proj2 scores_before_half_inning) df pre r [] eq_refl Hm)
    as (w & o & Hw & _ & _ & Hbs & Hts & Hdiff & _).
  exists w. split; [exact Hw|].
  rewrite Hdiff, Hbs, Hts. repeat split.
Defined.

(** ** Linescores: normalisation of [runs] *)




Lemma sumZ_map_perm {A} (f : A -> Z) (l l' : list A) :
  Permutation l l' -> sumZ (map f l) = sumZ (map f l').
Proof. induction 1; simpl; lia. Qed.

Lemma sumZ_map_drop_duplicates {A K : Type} `{Cmp K} (col : A -> K) (f : A -> Z)
      (seen : list K) (l : list A) :
  (forall x, 0 <= f x) ->
  sumZ (map f (drop_duplicates_from col seen l)) <= sumZ (map f l).
Proof.
  intros Hf. revert seen. induction l as [|x l IH]; intros seen; simpl; [lia|].
  destruct (existsb (key_eqb (col x)) seen); simpl.
  - specialize (IH seen). specialize (Hf x). lia.
  - specialize (IH (col x :: seen)). lia.
Qed.

(** Deduplication and normalisation do not add to the magnitude of an
    input. *)
Lemma magnitude_chronological (df : list Linescores.Raw) :
  Linescores.magnitude (Linescores.chronological df)
  <= Linescores.raw_magnitude df.
Proof.
  rewrite chronological_eq. unfold Linescores.magnitude, Linescores.raw_magnitude.
  rewrite map_map. simpl. unfold Linescores.dedup, drop_duplicates.
  etransitivity.
  - apply (sumZ_map_drop_duplicates Linescores.half_inning).
    intros x. apply Z.abs_nonneg.
  - rewrite <- (sumZ_map_perm _ _ _
                  (sort_values_perm (@Linescores.sort_key (option Z)) df)).
    apply Z.le_refl.
Qed.

(** Every row of the derived frame sits at some position of the frame it
    was derived from, with the scores of that position, while the frame's
    magnitude stays within [2^53]. *)
Lemma derive_In (l : list (Linescores.Row Z)) (w : Linescores.Work) :
  Linescores.magnitude l <= 2 ^ 53 ->
  In w (Linescores.derive l) ->
  exists pre post,
    l = pre ++ Linescores.row w :: post
    /\ Linescores.battingteam_score w
       = Linescores.runs_before (Linescores.same_batting_team (Linescores.row w)) pre
    /\ Linescores.total_score w
       = Linescores.runs_before (Linescores.same_game (Linescores.row w)) pre
    /\ Linescores.battingteam_score_diff w
       = Linescores.battingteam_score w
         - (Linescores.total_score w - Linescores.battingteam_score w).
Proof.
  intros Hm Hw. apply In_nth_error in Hw. destruct Hw as (i & Hi).
  pose proof (map_nth_error Linescores.row _ _ Hi) as Hr.
  rewrite derive_rows in Hr.
  destruct (nth_error_split _ _ Hr) as (pre & post & -> & <-).
  destruct (derive_nth pre (Linescores.row w) post) as (cb & ct & Hn).
  { pose proof (magnitude_prefix pre (Linescores.row w) post). lia. }
  rewrite Hn in Hi. injection Hi as <-.
  exists pre, post. simpl. auto.
Qed.




(** ** Linescores: shape of the output *)

Lemma has_column_In (c : string) (cols : list string) :
  has_column c cols = true <-> In c cols.
Proof.
  unfold has_column. rewrite existsb_exists. split.
  - intros (x & Hx & E). apply String.eqb_eq in E. now subst.
  - intros Hc. exists c. split; [assumption | apply String.eqb_refl].
Qed.

(** C9.  The output columns are the base fields followed by
    [battingteam_score] and [battingteam_score_diff]; whatever the raw
    columns, none of the intermediate columns nor the batch tag is among
    them.  The output rows are, in order, the surviving input rows with
    [gamePk], [inning], [half] and [battingteamid] unchanged and [runs]
    normalised. *)
Theorem linescore_output_frame :
  Linescores.output_columns Linescores.raw_columns
  = Linescores.base_columns ++ ["battingteam_score"; "battingteam_score_diff"]
  /\ (forall (cols : list string) (c : string),
         In c ["cum_runs_batting"; "cum_runs_total"; "total_score";
               "source_folder_date"] ->
         ~ In c (Linescores.output_columns cols))
  /\ (forall df : list Linescores.Raw,
         map (fun o => (Linescores.out_gamePk o, Linescores.out_inning o,
                        Linescores.out_half o, Linescores.out_battingteamid o,
                        Linescores.out_runs o))
             (Linescores.process_linescores df)
         = map (fun r => (Linescores.gamePk r, Linescores.inning r,
                          Linescores.half r, Linescores.battingteamid r,
                          fillna0 (Linescores.runs r)))
               (Linescores.dedup df))
  /\ (forall (df : list Linescores.Raw) (r : Linescores.Raw),
         In r (Linescores.dedup df) -> In r df).
Proof.
  split; [reflexivity|]. split; [|split].
  - intros cols c Hc Hout. unfold Linescores.output_columns, drop_columns in Hout.
    apply filter_In in Hout. destruct Hout as [_ Hout].
    apply negb_true_iff in Hout.
    apply (proj2 (has_column_In c Linescores.dropped_columns)) in Hc.
    congruence.
  - intros df. unfold Linescores.process_linescores, Linescores.work.
    rewrite map_map. simpl.
    rewrite <- (map_map Linescores.row
                  (fun r => (Linescores.gamePk r, Linescores.inning r,
                             Linescores.half r, Linescores.battingteamid r,
                             Linescores.runs r))).
    rewrite derive_rows, chronological_eq, map_map. reflexivity.
  - intros df r.
    apply (dedup_by_In Linescores.half_inning Linescores.source_folder_date).
Qed.

Lemma linescore_output_frame_witness :
  In "total_score" ["cum_runs_batting"; "cum_runs_total"; "total_score";
                    "source_folder_date"]
  /\ ~ In "total_score" (Linescores.output_columns Linescores.raw_columns).
Proof.
  assert (Hin : In "total_score" ["cum_runs_batting"; "cum_runs_total";
                                  "total_score"; "source_folder_date"])
    by (simpl; auto).
  split; [exact Hin|].
  exact (proj1 (proj2 linescore_output_frame) Linescores.raw_columns
               "total_score" Hin).
Defined.

(* ================================================================== *)
(** * Further properties of the transforms *)

(** ** Keys kept by [drop_duplicates] and [groupby] *)

Section KeyFacts.
Context {R K : Type} `{CmpLaws K}.
Variable col : R -> K.

Lemma drop_duplicates_keys (l : list R) (k : K) :
  In k (map col (drop_duplicates col l)) <-> In k (map col l).
Proof.
  rewrite !in_map_iff. split.
  - intros (x & E & Hx). exists x. split; [assumption|].
    now apply drop_duplicates_In in Hx.
  - intros (x & E & Hx).
    assert (G : In x (group_rows col k l)) by (apply group_rows_In; auto).
    destruct (group_rows col k l) as [|y t] eqn:Eg; [contradiction|].
    assert (Hy : In y (group_rows col k (drop_duplicates col l)))
      by (rewrite drop_duplicates_group, Eg; now left).
    apply group_rows_In in Hy. exists y. tauto.
Qed.

Lemma single_groups_NoDup (l : list R) :
  (forall k, (List.length (group_rows col k l) <= 1)%nat) -> NoDup (map col l).
Proof.
  induction l as [|x l IH]; simpl; intros Hk; [constructor|].
  constructor.
  - rewrite in_map_iff. intros (y & E & Hy).
    specialize (Hk (col x)). unfold group_rows in Hk. simpl in Hk.
    rewrite key_eqb_refl in Hk. simpl in Hk.
    assert (G : In y (filter (fun r => key_eqb (col r) (col x)) l))
      by (apply filter_In; split; [assumption | now apply key_eqb_eq]).
    destruct (filter (fun r => key_eqb (col r) (col x)) l); [contradiction|].
    simpl in Hk. lia.
  - apply IH. intros k. specialize (Hk k). unfold group_rows in *. simpl in Hk.
    destruct (key_eqb (col x) k); simpl in Hk; lia.
Qed.

Lemma drop_duplicates_NoDup (l : list R) :
  NoDup (map col (drop_duplicates col l)).
Proof.
  apply single_groups_NoDup. intros k. rewrite drop_duplicates_group.
  destruct (group_rows col k l); simpl; lia.
Qed.

(** [groupby] makes one group per key, in the order [drop_duplicates]
    leaves the keys. *)
Lemma groupby_keys (l : list R) :
  map (fun g => col (fst g)) (groupby col l) = map col (drop_duplicates col l).
Proof.
  unfold groupby.
  assert (Hd : forall x, In x (drop_duplicates col l) -> In x l)
    by apply drop_duplicates_In.
  induction (drop_duplicates col l) as [|r0 d IH]; simpl; [reflexivity|].
  rewrite map_app, IH by (intros x Hx; apply Hd; now right).
  f_equal.
  assert (G : In r0 (group_rows col (col r0) l))
    by (apply group_rows_In; split; [apply Hd; now left | reflexivity]).
  destruct (group_rows col (col r0) l) as [|r g] eqn:Eg; [contradiction|].
  simpl. f_equal.
  assert (Hr : In r (group_rows col (col r0) l)) by (rewrite Eg; now left).
  now apply group_rows_In in Hr.
Qed.

(** A strictly ascending frame is determined by the rows it holds. *)
Lemma strictly_ascending_ext (l1 l2 : list K) :
  strictly_ascending (fun k => k) l1 -> strictly_ascending (fun k => k) l2 ->
  (forall x, In x l1 <-> In x l2) -> l1 = l2.
Proof.
  unfold strictly_ascending. intros H1. revert l2.
  induction H1 as [|a l1 Hs1 IH Ha]; intros l2 H2 Hmem.
  - destruct l2 as [|b l2]; [reflexivity|].
    exfalso. apply (proj2 (Hmem b)). now left.
  - destruct H2 as [|b l2 Hs2 Hb].
    + exfalso. apply (proj1 (Hmem a)). now left.
    + rewrite Forall_forall in Ha, Hb.
      assert (E : a = b).
      { destruct (proj1 (Hmem a) (or_introl eq_refl)) as [E|Hin]; [now symmetry|].
        destruct (proj2 (Hmem b) (or_introl eq_refl)) as [E|Hin']; [assumption|].
        specialize (Ha b Hin'). specialize (Hb a Hin).
        apply cmp_gt_lt in Hb. congruence. }
      subst b. f_equal. apply IH; [assumption|].
      intros x. split; intros Hx.
      * destruct (proj1 (Hmem x) (or_intror Hx)) as [E|Hin]; [|assumption].
        subst x. specialize (Ha a Hx). rewrite cmp_refl in Ha. discriminate.
      * destruct (proj2 (Hmem x) (or_intror Hx)) as [E|Hin]; [|assumption].
        subst x. specialize (Hb a Hx). rewrite cmp_refl in Hb. discriminate.
Qed.

Lemma strictly_ascending_map_eq {R' : Type} (col' : R' -> K)
      (l : list R) (l' : list R') :
  map col l = map col' l' -> strictly_ascending col' l' -> strictly_ascending col l.
Proof.
  unfold strictly_ascending. intros E Hs. revert l E.
  induction Hs as [|x' l' Hs IH Hx]; intros [|x l] E; simpl in E;
    try discriminate; [constructor|].
  injection E as Ex El. constructor; [now apply IH|].
  apply Forall_forall. intros y Hy.
  assert (Hk : In (col y) (map col' l')) by (rewrite <- El; now apply in_map).
  apply in_map_iff in Hk. destruct Hk as (y' & Ey & Hy').
  rewrite Forall_forall in Hx. rewrite Ex, <- Ey. now apply Hx.
Qed.

(** In a strictly ascending frame, a row is above the rows before it and
    below the rows after it. *)
Lemma strictly_ascending_split (pre : list R) (r : R) (post : list R) :
  strictly_ascending col (pre ++ r :: post) ->
  Forall (fun x => key_ltb (col x) (col r) = true) pre
  /\ Forall (fun x => key_ltb (col x) (col r) = false) (r :: post).
Proof.
  unfold strictly_ascending. intros Hs.
  apply StronglySorted_app_inv in Hs. destruct Hs as (_ & Hs & Hc).
  apply StronglySorted_inv in Hs. destruct Hs as [_ Hr].
  split; [|constructor].
  - apply Forall_forall. intros x Hx. unfold key_ltb.
    now rewrite (Hc x r Hx (or_introl eq_refl)).
  - unfold key_ltb. now rewrite cmp_refl.
  - eapply Forall_impl; [|exact Hr]. simpl. intros x Hx. unfold key_ltb.
    apply cmp_gt_lt in Hx. now rewrite Hx.
Qed.
End KeyFacts.

Section DedupKeys.
Context {R K : Type} `{CmpLaws K}.
Variable key : R -> K.
Variable batch : R -> string.

Lemma dedup_by_keys (l : list R) (k : K) :
  In k (map key (drop_duplicates key
                   (sort_values (fun r => (key r, desc (batch r))) l)))
  <-> In k (map key l).
Proof.
  rewrite drop_duplicates_keys, !in_map_iff.
  split; intros (x & E & Hx); exists x; split; try assumption;
    now apply (sort_values_In (fun r => (key r, desc (batch r)))).
Qed.
End DedupKeys.

(** ** Games: one row per game *)

(** X1.  The output of [process_games] has one row per [gamePk] of the
    input and no other, in strictly increasing [gamePk] order. *)
Theorem process_games_one_row_per_game :
  forall df : list Games.Raw,
    StronglySorted Z.lt (map Games.out_gamePk (Games.process_games df))
    /\ forall k : Z,
         In k (map Games.out_gamePk (Games.process_games df))
         <-> In k (map Games.gamePk df).
Proof.
  intros df. unfold Games.process_games. rewrite map_map. simpl.
  split.
  - pose proof (dedup_by_strict Games.gamePk Games.source_folder_date df) as Hs.
    change (strictly_ascending Games.gamePk (Games.dedup df)) in Hs.
    unfold strictly_ascending in Hs.
    induction Hs as [|x l Hs IH Hx]; simpl; constructor; [assumption|].
    now apply Forall_map.
  - intros k. apply (dedup_by_keys Games.gamePk Games.source_folder_date).
Qed.

(** ** Linescores: order of the output and order-free scores *)

Lemma process_linescores_keys (df : list Linescores.Raw) :
  map out_half_inning (Linescores.process_linescores df)
  = map Linescores.half_inning (Linescores.dedup df).
Proof.
  unfold Linescores.process_linescores, Linescores.work.
  rewrite map_map. unfold out_half_inning. simpl.
  rewrite <- (map_map Linescores.row
                (fun r : Linescores.Row Z =>
                   (Linescores.gamePk r, Linescores.inning r, Linescores.half r))).
  now rewrite derive_rows, chronological_eq, map_map.
Qed.

(** X2.  The output of [process_linescores] has one row per
    ([gamePk], [inning], [half]) of the input and no other, strictly
    ascending on that key, [half] compared as text. *)
Theorem process_linescores_one_row_per_half_inning :
  forall df : list Linescores.Raw,
    strictly_ascending out_half_inning (Linescores.process_linescores df)
    /\ forall k : Z * Z * string,
         In k (map out_half_inning (Linescores.process_linescores df))
         <-> In k (map Linescores.half_inning df).
Proof.
  intros df. split.
  - eapply strictly_ascending_map_eq; [apply process_linescores_keys|].
    apply (dedup_by_strict Linescores.half_inning Linescores.source_folder_date).
  - intros k. rewrite process_linescores_keys.
    apply (dedup_by_keys Linescores.half_inning Linescores.source_folder_date).
Qed.

(** The runs of the game before a half-inning split into the batting
    team's and the others'. *)
Lemma runs_before_split (r : Linescores.Row Z) (pre : list (Linescores.Row Z)) :
  Linescores.runs_before (Linescores.same_game r) pre
  = Linescores.runs_before (Linescores.same_batting_team r) pre
    + Linescores.runs_before
        (fun x => Linescores.same_game r x
                  && negb (Z.eqb (Linescores.battingteamid x)
                                 (Linescores.battingteamid r))) pre.
Proof.
  unfold Linescores.runs_before, Linescores.same_game,
    Linescores.same_batting_team.
  induction pre as [|x pre IH]; simpl; [reflexivity|].
  destruct (Z.eqb (Linescores.gamePk x) (Linescores.gamePk r));
    destruct (Z.eqb (Linescores.battingteamid x) (Linescores.battingteamid r));
    simpl; lia.
Qed.

Lemma out_runs_filter (p : Linescores.Out -> bool) (q : Linescores.Row Z -> bool)
      (ws : list Linescores.Work) :
  (forall w, p (Linescores.drop_intermediate w) = q (Linescores.row w)) ->
  map Linescores.out_runs (filter p (map Linescores.drop_intermediate ws))
  = map Linescores.runs (filter q (map Linescores.row ws)).
Proof.
  intros Hpq. induction ws as [|w ws IH]; simpl; [reflexivity|].
  rewrite Hpq. destruct (q (Linescores.row w)); simpl; now rewrite IH.
Qed.

Lemma filter_earlier (q : Linescores.Row Z -> bool)
      (pre : list (Linescores.Row Z)) (r : Linescores.Row Z)
      (post : list (Linescores.Row Z)) :
  strictly_ascending Linescores.half_inning (pre ++ r :: post) ->
  filter (fun x => key_ltb (Linescores.half_inning x) (Linescores.half_inning r)
                   && q x) (pre ++ r :: post)
  = filter q pre.
Proof.
  intros Hs. apply strictly_ascending_split in Hs. destruct Hs as [Hpre Hpost].
  rewrite filter_app. rewrite (filter_none _ (r :: post)).
  - rewrite app_nil_r. apply filter_ext_in. intros x Hx.
    rewrite Forall_forall in Hpre. now rewrite (Hpre x Hx).
  - eapply Forall_impl; [|exact Hpost]. simpl. now intros x ->.
Qed.

(** X3.  While the input's [runs] total at most [2^53] in magnitude, on
    every output row [battingteam_score] is the total of [runs] over the
    output rows of the same game and batting team with an earlier
    half-inning key, and [battingteam_score_diff] is that total minus the
    total of [runs] over the output rows of the same game, another batting
    team and an earlier half-inning key. *)
Theorem scores_from_earlier_output_rows :
  forall (df : list Linescores.Raw) (o : Linescores.Out),
    Linescores.raw_magnitude df <= 2 ^ 53 ->
    In o (Linescores.process_linescores df) ->
    Linescores.out_battingteam_score o
    = sumZ (map Linescores.out_runs
                (filter (earlier_same_team o) (Linescores.process_linescores df)))
    /\ Linescores.out_battingteam_score_diff o
       = Linescores.out_battingteam_score o
         - sumZ (map Linescores.out_runs
                     (filter (earlier_other_team o)
                             (Linescores.process_linescores df))).
Proof.
  intros df o Hm Ho.
  unfold Linescores.process_linescores, Linescores.work in *.
  apply in_map_iff in Ho. destruct Ho as (w & <- & Hw).
  destruct (derive_In _ _ (Z.le_trans _ _ _ (magnitude_chronological df) Hm) Hw)
    as (pre & post & E & Hbs & Hts & Hdiff).
  pose proof (chronological_strict df) as Hs.
  rewrite <- chronological_eq, E in Hs.
  set (r := Linescores.row w) in *.
  rewrite (out_runs_filter _
             (fun x => key_ltb (Linescores.half_inning x) (Linescores.half_inning r)
                       && Linescores.same_batting_team r x)).
  2:{ intros w'. unfold earlier_same_team, Linescores.same_batting_team.
      simpl. now rewrite andb_assoc. }
  rewrite (out_runs_filter (earlier_other_team _)
             (fun x => key_ltb (Linescores.half_inning x) (Linescores.half_inning r)
                       && (Linescores.same_game r x
                           && negb (Z.eqb (Linescores.battingteamid x)
                                          (Linescores.battingteamid r))))).
  2:{ intros w'. unfold earlier_other_team, Linescores.same_game.
      simpl. now rewrite andb_assoc. }
  rewrite derive_rows, E, !filter_earlier by exact Hs.
  simpl. rewrite Hdiff, Hts, Hbs. split; [reflexivity|].
  rewrite (runs_before_split r pre). unfold Linescores.runs_before. lia.
Qed.

Lemma scores_from_earlier_output_rows_witness :
  let df := [Linescores.mkRow 1 1 "top" 141 (Some 2) "2025-04-01";
             Linescores.mkRow 1 1 "bottom" 147 (Some 3) "2025-04-01";
             Linescores.mkRow 1 2 "top" 141 (Some 1) "2025-04-01"] in
  let o := Linescores.mkOut 1 2 "top" 141 1 2 (-1) in
  Linescores.raw_magnitude df <= 2 ^ 53
  /\ In o (Linescores.process_linescores df)
  /\ Linescores.out_battingteam_score_diff o = 2 - 3.
Proof.
  intros df o.
  assert (Hm : Linescores.raw_magnitude df <= 2 ^ 53)
    by (vm_compute; discriminate).
  assert (Hin : In o (Linescores.process_linescores df))
    by (right; right; left; reflexivity).
  split; [exact Hm|]. split; [exact Hin|].
  destruct (scores_from_earlier_output_rows df o Hm Hin) as [_ Hd].
  rewrite Hd. reflexivity.
Defined.

(** ** Runner plays: rows, keys and bases *)

Lemma filter_all {A} (p : A -> bool) (l : list A) :
  Forall (fun y => p y = true) l -> filter p l = l.
Proof.
  induction 1 as [|y l Hy _ IH]; simpl; [reflexivity|]. rewrite Hy. now f_equal.
Qed.

Lemma ordered_In (df : list Runners.Raw.t) (s : Runners.Seg.t) :
  In s (Runners.ordered df) ->
  exists r, In r (Runners.dedup df) /\ In r df /\ s = Runners.prepare r.
Proof.
  unfold Runners.ordered. intros Hs.
  apply (proj1 (sort_values_In Runners.play _ _)) in Hs.
  apply in_map_iff in Hs. destruct Hs as (r & <- & Hr).
  exists r. repeat split; [assumption|].
  now apply (dedup_by_In Runners.segment_key Runners.Raw.source_folder_date).
Qed.

Lemma group_In_ordered (df : list Runners.Raw.t) (first : Runners.Seg.t)
      (rest : list Runners.Seg.t) (s : Runners.Seg.t) :
  first :: rest
  = group_rows Runners.play_runner (Runners.play_runner first) (Runners.ordered df) ->
  In s (first :: rest) ->
  Runners.play_runner s = Runners.play_runner first
  /\ exists r, In r df /\ s = Runners.prepare r.
Proof.
  intros Hg Hs. rewrite Hg in Hs. apply group_rows_In in Hs.
  destruct Hs as [Hs Hk]. split; [assumption|].
  destruct (ordered_In df s Hs) as (r & _ & Hr & E). eauto.
Qed.

Lemma ordered_keys (df : list Runners.Raw.t) (k : Z * Z * Z * Z) :
  In k (map Runners.play_runner (Runners.ordered df))
  <-> In k (map raw_play_runner df).
Proof.
  rewrite !in_map_iff. split.
  - intros (s & E & Hs). destruct (ordered_In df s Hs) as (r & _ & Hr & ->).
    exists r. split; [exact E | exact Hr].
  - intros (r & E & Hr).
    assert (Hk : In (Runners.segment_key r)
                    (map Runners.segment_key (Runners.dedup df))).
    { apply (proj2 (dedup_by_keys Runners.segment_key
                             Runners.Raw.source_folder_date df _)).
      now apply in_map. }
    apply in_map_iff in Hk. destruct Hk as (r' & E' & Hr').
    exists (Runners.prepare r'). split.
    + rewrite <- E. unfold Runners.segment_key in E'.
      injection E' as E1 E2 E3 E4 _ _.
      unfold Runners.play_runner, raw_play_runner. simpl. congruence.
    + unfold Runners.ordered. apply (proj2 (sort_values_In Runners.play _ _)).
      now apply in_map.
Qed.

Lemma process_runner_play_keys (df : list Runners.Raw.t) :
  map out_play_runner (Runners.process_runner_play df)
  = map Runners.play_runner
        (drop_duplicates Runners.play_runner (Runners.ordered df)).
Proof.
  unfold Runners.process_runner_play. rewrite map_map.
  rewrite <- groupby_keys. apply map_ext. now intros [first rest].
Qed.

Lemma key_leb_fst {A B : Type} `{Cmp A} `{Cmp B} (p q : A * B) :
  key_leb p q = true -> key_leb (fst p) (fst q) = true.
Proof.
  unfold key_leb, cmp at 1, prod_cmp.
  now destruct (cmp (fst p) (fst q)).
Qed.

Lemma ascending_fst {R A B : Type} `{Cmp A} `{Cmp B} (f : R -> A * B) (l : list R) :
  ascending f l -> ascending (fun r => fst (f r)) l.
Proof.
  unfold ascending.
  induction 1 as [|x l Hs IH Hx]; constructor; [assumption|].
  eapply Forall_impl; [|exact Hx]. intros y. apply key_leb_fst.
Qed.

Lemma ascending_map {R R' K : Type} `{Cmp K} (f : R -> R') (col : R' -> K)
      (l : list R) :
  ascending (fun r => col (f r)) l -> ascending col (map f l).
Proof.
  unfold ascending.
  induction 1 as [|x l Hs IH Hx]; simpl; constructor; [assumption|].
  now apply Forall_map.
Qed.

(** The deduplicated segments ascend on the play and runner. *)
Lemma dedup_ascending_play_runner (df : list Runners.Raw.t) :
  ascending raw_play_runner (Runners.dedup df).
Proof.
  pose proof (dedup_by_strict Runners.segment_key Runners.Raw.source_folder_date df)
    as Hs.
  apply strictly_ascending_ascending in Hs.
  apply ascending_fst, ascending_fst in Hs. exact Hs.
Qed.

Lemma ordered_eq (df : list Runners.Raw.t) :
  Runners.ordered df = map Runners.prepare (Runners.dedup df).
Proof.
  unfold Runners.ordered. apply sort_values_id. apply ascending_map.
  exact (ascending_fst _ _ (dedup_ascending_play_runner df)).
Qed.

(** X4.  The output of [process_runner_play] has exactly one row per
    ([gamePk], [atBatIndex], [playIndex], [runnerid]) of the input and no
    other, strictly ascending on that key. *)
Theorem process_runner_play_one_row_per_play_runner :
  forall df : list Runners.Raw.t,
    strictly_ascending out_play_runner (Runners.process_runner_play df)
    /\ NoDup (map out_play_runner (Runners.process_runner_play df))
    /\ forall k : Z * Z * Z * Z,
         In k (map out_play_runner (Runners.process_runner_play df))
         <-> In k (map raw_play_runner df).
Proof.
  intros df. split; [|rewrite process_runner_play_keys; split].
  - eapply strictly_ascending_map_eq; [apply process_runner_play_keys|].
    apply drop_duplicates_strict. rewrite ordered_eq. apply ascending_map.
    exact (dedup_ascending_play_runner df).
  - apply drop_duplicates_NoDup.
  - intros k. rewrite drop_duplicates_keys. apply ordered_keys.
Qed.

(** X13.  The sorts of lines 101 and 195 change nothing: deduplication
    leaves the linescores strictly ascending on ([gamePk], [inning],
    [half]) and the segments strictly ascending on ([gamePk],
    [atBatIndex], [playIndex], [runnerid], [start], [end]), missing
    [start] and [end] last; so the segments of one play and runner are
    aggregated in the text order of their ([start], [end]), not in input
    order. *)
Theorem second_sorts_change_nothing :
  forall (lines : list Linescores.Raw) (segments : list Runners.Raw.t),
    Linescores.chronological lines
    = map Linescores.normalize_runs (Linescores.dedup lines)
    /\ strictly_ascending Linescores.half_inning (Linescores.dedup lines)
    /\ Runners.ordered segments = map Runners.prepare (Runners.dedup segments)
    /\ strictly_ascending Runners.segment_key (Runners.dedup segments).
Proof.
  intros lines segments. split; [apply chronological_eq|]. split; [|split].
  - apply (dedup_by_strict Linescores.half_inning Linescores.source_folder_date).
  - apply ordered_eq.
  - apply (dedup_by_strict Runners.segment_key Runners.Raw.source_folder_date).
Qed.

(** X14.  Of the input segments with one ([gamePk], [atBatIndex],
    [playIndex], [runnerid], [start], [end]), the one that is aggregated
    has the latest batch tag, and is the first such segment of the
    input. *)
Theorem segment_dedup_keeps_latest_batch :
  forall (df : list Runners.Raw.t) (a : Runners.Raw.t),
    In a df ->
    exists r,
      group_rows Runners.segment_key (Runners.segment_key a) (Runners.dedup df) = [r]
      /\ In r df
      /\ In (Runners.prepare r) (Runners.ordered df)
      /\ (forall r', In r' df -> Runners.segment_key r' = Runners.segment_key a ->
             String.leb (Runners.Raw.source_folder_date r')
                        (Runners.Raw.source_folder_date r) = true)
      /\ exists pre post,
           df = pre ++ r :: post
           /\ Forall (fun x => ~ (Runners.segment_key x = Runners.segment_key a
                                  /\ Runners.Raw.source_folder_date x
                                     = Runners.Raw.source_folder_date r)) pre.
Proof.
  intros df a Ha.
  destruct (dedup_by_survivor Runners.segment_key Runners.Raw.source_folder_date
              df (Runners.segment_key a)) as (r & Hone & Hin & Hk & Hlatest & Hfirst);
    [now exists a|].
  exists r. repeat split; try assumption.
  rewrite ordered_eq. apply in_map.
  assert (Hg : In r (group_rows Runners.segment_key (Runners.segment_key a)
                                (Runners.dedup df))).
  { unfold Runners.dedup, Runners.sort_key. rewrite Hone. now left. }
  now apply group_rows_In in Hg.
Qed.

Lemma segment_dedup_keeps_latest_batch_witness :
  let old := Runners.Raw.mk 1 0 0 7 (Some "Runner Seven") (Some "1B") (Some "1B")
                            (Some "2B") false None None None None "2025-04-01" in
  let new := Runners.Raw.mk 1 0 0 7 (Some "Runner Seven") (Some "1B") (Some "1B")
                            (Some "2B") true None None None None "2025-04-02" in
  In old [old; new]
  /\ group_rows Runners.segment_key (Runners.segment_key old)
                (Runners.dedup [old; new]) = [new].
Proof.
  intros old new.
  assert (Hin : In old [old; new]) by now left.
  split; [exact Hin|].
  destruct (segment_dedup_keeps_latest_batch [old; new] old Hin)
    as (r & Hone & _).
  rewrite Hone. vm_compute in Hone. injection Hone as <-. reflexivity.
Defined.

(** X5.  A merged row is out exactly when one of its segments is out;
    when none is, [reachedbase] is the row's [endbase]. *)
Theorem merged_is_out_any_segment :
  forall (df : list Runners.Raw.t) (p : Runners.Play),
    In p (Runners.process_runner_play df) ->
    exists first rest,
      first :: rest
      = group_rows Runners.play_runner (out_play_runner p) (Runners.ordered df)
      /\ (Runners.Merged.is_out (Runners.merged p) = true
          <-> exists s, In s (first :: rest) /\ Runners.Seg.is_out s = true)
      /\ (Runners.Merged.is_out (Runners.merged p) = false ->
          Runners.Merged.reachedbase (Runners.merged p)
          = Runners.Merged.endbase (Runners.merged p)).
Proof.
  intros df p Hp.
  destruct (process_runner_play_In df p Hp) as (first & rest & Hg & ->).
  exists first, rest. split; [exact Hg|]. split.
  - cbn [Runners.merged Runners.flags Runners.agg Runners.Merged.is_out].
    apply existsb_exists.
  - cbn [Runners.merged Runners.flags Runners.agg Runners.Merged.is_out
         Runners.Merged.reachedbase Runners.Merged.endbase].
    intros Hout. unfold Runners.calculate_reached_base.
    rewrite filter_all; [reflexivity|].
    apply Forall_forall. intros s Hs.
    destruct (Runners.Seg.is_out s) eqn:E; [|reflexivity].
    assert (Hex : existsb Runners.Seg.is_out (first :: rest) = true)
      by (apply existsb_exists; eauto).
    congruence.
Qed.

Lemma merged_is_out_any_segment_witness :
  let legs := [Samples.leg (Some "1B") (Some "1B") (Some "2B") false None;
               Samples.leg (Some "1B") (Some "2B") (Some "score") false None] in
  exists p,
    In p (Runners.process_runner_play legs)
    /\ Runners.Merged.reachedbase (Runners.merged p)
       = Runners.Merged.endbase (Runners.merged p).
Proof.
  intros legs.
  eexists. split; [left; reflexivity|].
  destruct (merged_is_out_any_segment legs _ (or_introl eq_refl))
    as (first & rest & _ & _ & Hsafe).
  apply Hsafe. reflexivity.
Defined.

Lemma replace_home (v : string) :
  replace Runners.BASE_MAP_REPLACE v <> "score"
  /\ replace Runners.BASE_MAP_REPLACE v <> "4B"
  /\ (v = "score" \/ v = "4B" -> replace Runners.BASE_MAP_REPLACE v = "HM")
  /\ (v <> "score" -> v <> "4B" -> replace Runners.BASE_MAP_REPLACE v = v).
Proof.
  unfold replace, Runners.BASE_MAP_REPLACE. cbn [find fst snd].
  destruct (String.eqb_spec "score" v) as [<-|H1]; cbn [find fst snd].
  - split; [discriminate|]. split; [discriminate|]. split; [reflexivity|].
    intros Hn. now contradiction Hn.
  - destruct (String.eqb_spec "4B" v) as [<-|H2]; cbn [find fst snd].
    + split; [discriminate|]. split; [discriminate|]. split; [reflexivity|].
      intros _ Hn. now contradiction Hn.
    + split; [congruence|]. split; [congruence|]. split; [|reflexivity].
      intros [->| ->]; congruence.
Qed.

(** X6.  Home plate is standardised: the [endbase] of an output row is
    never ["score"] nor ["4B"], and it is ["HM"], the raw [end] when that is
    another label, or ["B"] when the raw [end] is missing, of an input
    segment of the row's play and runner. *)
Theorem endbase_home_standardised :
  forall (df : list Runners.Raw.t) (p : Runners.Play),
    In p (Runners.process_runner_play df) ->
    Runners.Merged.endbase (Runners.merged p) <> "score"
    /\ Runners.Merged.endbase (Runners.merged p) <> "4B"
    /\ exists r,
         In r df /\ raw_play_runner r = out_play_runner p
         /\ Runners.Merged.endbase (Runners.merged p)
            = match Runners.Raw.end_ r with
              | None => "B"
              | Some e => if String.eqb e "score" || String.eqb e "4B"
                          then "HM" else e
              end.
Proof.
  intros df p Hp.
  destruct (process_runner_play_In df p Hp) as (first & rest & Hg & ->).
  cbn [Runners.merged Runners.flags Runners.agg Runners.Merged.endbase].
  assert (Hl : In (last rest first) (first :: rest)).
  { destruct rest as [|x rest]; [now left|].
    right. destruct (@exists_last _ (x :: rest)) as (l' & a & E);
      [discriminate|].
    rewrite E, last_last. apply in_or_app. right. now left. }
  destruct (group_In_ordered df first rest _ Hg Hl) as (Hk & r & Hr & E).
  rewrite E. cbn [Runners.prepare Runners.Seg.endbase].
  destruct (replace_home (fillna "B" (Runners.Raw.end_ r)))
    as (H1 & H2 & H3 & H4).
  repeat split; try assumption.
  exists r. split; [assumption|]. split.
  - change (raw_play_runner r) with (Runners.play_runner (Runners.prepare r)).
    rewrite <- E. exact Hk.
  - destruct (Runners.Raw.end_ r) as [e|]; cbn [fillna] in *.
    + destruct (String.eqb_spec e "score") as [->|N1]; simpl; [now apply H3; left|].
      destruct (String.eqb_spec e "4B") as [->|N2]; simpl; [now apply H3; right|].
      now apply H4.
    + now apply H4.
Qed.

Lemma endbase_home_standardised_witness :
  let legs := [Samples.leg (Some "3B") (Some "3B") (Some "score") false None] in
  exists p,
    In p (Runners.process_runner_play legs)
    /\ Runners.Merged.endbase (Runners.merged p) <> "score".
Proof.
  intros legs.
  eexists. split; [left; reflexivity|].
  apply (endbase_home_standardised legs _ (or_introl eq_refl)).
Defined.

(** ** Runner plays: flags *)

(** X7.  On every output row, [is_secondtohome] holds exactly when the
    row starts at 2B, reaches HM, has no event type in which [home_run]
    occurs, and is not out; such a row is a scoring-position row, and no
    row is both first-to-third and second-to-home. *)
Theorem is_secondtohome_spec :
  forall (df : list Runners.Raw.t) (p : Runners.Play),
    In p (Runners.process_runner_play df) ->
    let m := Runners.merged p in
    (Runners.is_secondtohome p = true <->
       Runners.Merged.startbase m = "2B"
       /\ Runners.Merged.reachedbase m = "HM"
       /\ (forall ev, Runners.Merged.eventtype m = Some ev ->
                      ~ Substring "home_run" ev)
       /\ Runners.Merged.is_out m = false)
    /\ (Runners.is_secondtohome p = true -> Runners.is_risp p = true)
    /\ (Runners.is_firsttothird p = true -> Runners.is_secondtohome p = false).
Proof.
  intros df p Hp.
  destruct (process_runner_play_In df p Hp) as (first & rest & _ & ->).
  generalize (Runners.agg (first, rest)). clear. intros m. simpl.
  assert (Hev : negb (contains_na_false "home_run" (Runners.Merged.eventtype m)) = true
                <-> forall ev, Runners.Merged.eventtype m = Some ev ->
                               ~ Substring "home_run" ev).
  { destruct (Runners.Merged.eventtype m) as [ev|]; simpl.
    - rewrite negb_true_iff, <- not_true_iff_false, str_contains_spec.
      split; [intros Hn ev' [= <-]; exact Hn | intros Hn; now apply Hn].
    - split; [discriminate | reflexivity]. }
  assert (Hout : Bool.eqb (Runners.Merged.is_out m) false = true
                 <-> Runners.Merged.is_out m = false)
    by (destruct (Runners.Merged.is_out m); simpl; split; congruence).
  split; [|split].
  - rewrite !andb_true_iff, !String.eqb_eq, Hev, Hout. tauto.
  - rewrite !andb_true_iff, String.eqb_eq. intros (((E & _) & _) & _).
    now rewrite E.
  - rewrite !andb_true_iff, String.eqb_eq. intros (((E & _) & _) & _).
    now rewrite E.
Qed.

Lemma is_secondtohome_spec_witness :
  let legs := [Samples.leg (Some "2B") (Some "2B") (Some "3B") false (Some "single");
               Samples.leg (Some "2B") (Some "3B") (Some "score") false (Some "single")] in
  exists p,
    In p (Runners.process_runner_play legs)
    /\ Runners.is_secondtohome p = true /\ Runners.is_risp p = true.
Proof.
  intros legs.
  eexists. split; [left; reflexivity|].
  destruct (is_secondtohome_spec legs _ (or_introl eq_refl)) as (_ & Hx & _).
  split; [reflexivity|]. apply Hx. reflexivity.
Defined.

Lemma string_app_assoc (a b c : string) :
  ((a ++ b) ++ c)%string = (a ++ b ++ c)%string.
Proof. induction a as [|x a IH]; simpl; [reflexivity|]. now rewrite IH. Qed.

Lemma string_app_nil_r (a : string) : (a ++ "")%string = a.
Proof. induction a as [|x a IH]; simpl; [reflexivity|]. now rewrite IH. Qed.

Lemma Substring_trans (pat s t : string) :
  Substring pat s -> Substring s t -> Substring pat t.
Proof.
  intros (a & b & ->) (pre & post & ->).
  exists (pre ++ a)%string, (b ++ post)%string.
  now rewrite !string_app_assoc.
Qed.

(** Every joined label occurs in the join. *)
Lemma concat_In_Substring (sep : string) (l : list string) (x : string) :
  In x l -> Substring x (String.concat sep l).
Proof.
  induction l as [|y l IH]; [contradiction|].
  intros Hx. destruct l as [|z l].
  - destruct Hx as [->|[]]. exists "", "". simpl. now rewrite string_app_nil_r.
  - change (String.concat sep (y :: z :: l))
      with (y ++ sep ++ String.concat sep (z :: l))%string.
    destruct Hx as [->|Hx].
    + now exists "", (sep ++ String.concat sep (z :: l))%string.
    + destruct (IH Hx) as (pre & post & ->).
      exists (y ++ sep ++ pre)%string, post.
      now rewrite !string_app_assoc.
Qed.

Lemma dropna_In {A} (s : list (option A)) (a : A) :
  In a (dropna s) <-> In (Some a) s.
Proof.
  unfold dropna. rewrite in_flat_map. split.
  - intros ([b|] & Hs & Ha); simpl in Ha; [|contradiction].
    destruct Ha as [->|[]]. exact Hs.
  - intros Hs. exists (Some a). split; [exact Hs | now left].
Qed.

(** The labels [uniq_join_keep_dups] joins: the cells that are present and
    not empty. *)
Lemma labels_In (s : list (option string)) (v : string) :
  In v (filter (fun v => negb (String.eqb v "")) (dropna s))
  <-> In (Some v) s /\ v <> "".
Proof.
  rewrite filter_In, dropna_In, negb_true_iff, String.eqb_neq. tauto.
Qed.

Lemma sorted_set_In (vals : list string) (v : string) :
  In v (sort_values (fun v => v) (drop_duplicates (fun v => v) vals))
  <-> In v vals.
Proof.
  rewrite (sort_values_In (fun v : string => v)).
  pose proof (drop_duplicates_keys (fun v : string => v) vals v) as Hk.
  now rewrite !map_id in Hk.
Qed.

Lemma uniq_join_keep_dups_contains (s : list (option string)) (pat ev : string) :
  In (Some ev) s -> ev <> "" -> Substring pat ev ->
  exists j, Runners.uniq_join_keep_dups s = Some j /\ Substring pat j.
Proof.
  intros Hs Hne Hsub. unfold Runners.uniq_join_keep_dups.
  assert (Hin : In ev (filter (fun v => negb (String.eqb v "")) (dropna s)))
    by (apply labels_In; auto).
  apply sorted_set_In in Hin.
  destruct (filter (fun v => negb (String.eqb v "")) (dropna s)) as [|x vals];
    [destruct Hin|].
  eexists. split; [reflexivity|].
  eapply Substring_trans; [exact Hsub|]. now apply concat_In_Substring.
Qed.

(** X8.  When the event type of some segment of a row's group contains
    [home_run], the row is neither first-to-third nor second-to-home,
    whatever its bases and the event types of its other segments. *)
Theorem home_run_clears_advance_flags :
  forall (df : list Runners.Raw.t) (p : Runners.Play),
    In p (Runners.process_runner_play df) ->
    exists first rest,
      first :: rest
      = group_rows Runners.play_runner (out_play_runner p) (Runners.ordered df)
      /\ ((exists s ev, In s (first :: rest)
                        /\ Runners.Seg.eventtype s = Some ev
                        /\ Substring "home_run" ev) ->
          Runners.is_firsttothird p = false /\ Runners.is_secondtohome p = false).
Proof.
  intros df p Hp.
  destruct (process_runner_play_In df p Hp) as (first & rest & Hg & ->).
  exists first, rest. split; [exact Hg|].
  intros (s & ev & Hs & Hev & Hsub).
  assert (Hne : ev <> "").
  { intros ->. destruct Hsub as ([|a pre] & post & E); discriminate. }
  destruct (uniq_join_keep_dups_contains
              (map Runners.Seg.eventtype (first :: rest)) "home_run" ev)
    as (j & Hj & Hsubj); try assumption.
  { rewrite <- Hev. now apply in_map. }
  apply str_contains_spec in Hsubj.
  cbn [Runners.flags Runners.agg Runners.is_firsttothird Runners.is_secondtohome
       Runners.Merged.eventtype].
  rewrite Hj. cbn [contains_na_false]. rewrite Hsubj. cbn [negb].
  now rewrite !andb_false_r.
Qed.

Lemma home_run_clears_advance_flags_witness :
  let legs := [Samples.leg (Some "2B") (Some "2B") (Some "3B") false (Some "home_run");
               Samples.leg (Some "2B") (Some "3B") (Some "score") false None] in
  exists p,
    In p (Runners.process_runner_play legs)
    /\ Runners.is_secondtohome p = false.
Proof.
  intros legs.
  eexists. split; [left; reflexivity|].
  destruct (home_run_clears_advance_flags legs _ (or_introl eq_refl))
    as (first & rest & Hg & Hflags).
  apply Hflags.
  exists (Runners.prepare
            (Samples.leg (Some "2B") (Some "2B") (Some "3B") false (Some "home_run"))),
         "home_run".
  split; [rewrite Hg; now left|].
  split; [reflexivity|]. now exists "", "".
Defined.

(** ** [uniq_join_keep_dups] joins a set *)

Lemma ascending_NoDup_strict {R K : Type} `{CmpLaws K} (col : R -> K) (l : list R) :
  ascending col l -> NoDup (map col l) -> strictly_ascending col l.
Proof.
  unfold ascending, strictly_ascending.
  induction 1 as [|x l Hs IH Hx]; simpl; intros Hnd; constructor.
  - apply IH. now apply NoDup_cons_iff in Hnd.
  - apply NoDup_cons_iff in Hnd. destruct Hnd as [Hnx _].
    apply Forall_forall. intros y Hy. rewrite Forall_forall in Hx.
    specialize (Hx y Hy). apply key_leb_cases in Hx.
    destruct Hx as [Hlt|E]; [assumption|].
    exfalso. apply Hnx. rewrite E. now apply in_map.
Qed.

Lemma sorted_set_strict (vals : list string) :
  strictly_ascending (fun v => v)
    (sort_values (fun v => v) (drop_duplicates (fun v => v) vals)).
Proof.
  apply ascending_NoDup_strict; [apply sort_values_ascending|].
  eapply Permutation_NoDup.
  - apply Permutation_map, sort_values_perm.
  - apply drop_duplicates_NoDup.
Qed.

(** X9.  [uniq_join_keep_dups] depends only on the set of cells that are
    present and not empty: two columns with the same such cells, in any
    order and with any repetition, give the same result; the result is
    missing exactly when there is no such cell, and otherwise joins, in
    strictly ascending text order, exactly those cells. *)
Theorem uniq_join_keep_dups_set :
  forall s1 s2 : list (option string),
    (forall v, v <> "" -> (In (Some v) s1 <-> In (Some v) s2)) ->
    Runners.uniq_join_keep_dups s1 = Runners.uniq_join_keep_dups s2
    /\ (Runners.uniq_join_keep_dups s1 = None
        <-> forall v, In (Some v) s1 -> v = "")
    /\ (forall j, Runners.uniq_join_keep_dups s1 = Some j ->
          exists labels,
            j = String.concat "," labels
            /\ strictly_ascending (fun v => v) labels
            /\ forall v, In v labels <-> In (Some v) s1 /\ v <> "").
Proof.
  intros s1 s2 Hset. unfold Runners.uniq_join_keep_dups.
  pose proof (labels_In s1) as H1. pose proof (labels_In s2) as H2.
  remember (filter (fun v => negb (String.eqb v "")) (dropna s1)) as v1 eqn:E1 in *.
  remember (filter (fun v => negb (String.eqb v "")) (dropna s2)) as v2 eqn:E2 in *.
  clear E1 E2.
  assert (Hmem : forall v, In v v1 <-> In v v2).
  { intros v. rewrite H1, H2. split; intros [Hin Hne]; split; try assumption;
      now apply (Hset v Hne). }
  assert (Hc : sort_values (fun v => v) (drop_duplicates (fun v => v) v1)
               = sort_values (fun v => v) (drop_duplicates (fun v => v) v2)).
  { apply strictly_ascending_ext; try apply sorted_set_strict.
    intros v. now rewrite !sorted_set_In. }
  split; [|split].
  - rewrite Hc. destruct v1 as [|a t1], v2 as [|b t2]; try reflexivity.
    + exfalso. apply (proj2 (Hmem b)). now left.
    + exfalso. apply (proj1 (Hmem a)). now left.
  - split.
    + intros Hn v Hv. destruct (String.eqb_spec v "") as [E|N]; [assumption|].
      assert (Hin : In v v1) by (apply H1; auto).
      destruct v1; [destruct Hin | discriminate].
    + intros Hall. destruct v1 as [|a t1]; [reflexivity|].
      assert (Ha : In a (a :: t1)) by now left.
      apply H1 in Ha. destruct Ha as [Ha Hne]. now apply Hall in Ha.
  - intros j Hj.
    exists (sort_values (fun v => v) (drop_duplicates (fun v => v) v1)).
    split; [|split].
    + destruct v1; [discriminate|]. now injection Hj as <-.
    + apply sorted_set_strict.
    + intros v. now rewrite sorted_set_In.
Qed.

Lemma uniq_join_keep_dups_set_witness :
  Runners.uniq_join_keep_dups [Some "single"; None; Some "error"; Some "single"]
  = Runners.uniq_join_keep_dups [Some "error"; Some ""; Some "single"].
Proof.
  apply uniq_join_keep_dups_set.
  intros v Hne. simpl. split; intros Hin;
    repeat (destruct Hin as [Hin|Hin]; try discriminate; auto 6);
    try contradiction.
  injection Hin as <-. now contradiction Hne.
Defined.

(** ** Runner plays: start base *)

(** X10.  When the input segments of a play and runner all carry the same
    [originBase], the row's [startbase] is that base, ["B"] when it is
    missing, whatever the order the segments are processed in. *)
Theorem startbase_is_common_origin :
  forall (df : list Runners.Raw.t) (p : Runners.Play) (origin : option string),
    In p (Runners.process_runner_play df) ->
    (forall r, In r df -> raw_play_runner r = out_play_runner p ->
               Runners.Raw.originBase r = origin) ->
    Runners.Merged.startbase (Runners.merged p)
    = match origin with Some b => b | None => "B" end.
Proof.
  intros df p origin Hp Horigin.
  destruct (process_runner_play_In df p Hp) as (first & rest & Hg & ->).
  destruct (group_In_ordered df first rest first Hg (or_introl eq_refl))
    as (_ & r & Hr & E).
  cbn [Runners.merged Runners.flags Runners.agg Runners.Merged.startbase].
  rewrite <- (Horigin r Hr).
  - now rewrite E.
  - change (raw_play_runner r) with (Runners.play_runner (Runners.prepare r)).
    now rewrite <- E.
Qed.

Lemma startbase_is_common_origin_witness :
  let legs := [Samples.leg None None (Some "1B") false (Some "double");
               Samples.leg None (Some "1B") (Some "2B") false (Some "double")] in
  exists p,
    In p (Runners.process_runner_play legs)
    /\ Runners.Merged.startbase (Runners.merged p) = "B".
Proof.
  intros legs.
  eexists. split; [left; reflexivity|].
  apply (startbase_is_common_origin legs _ None (or_introl eq_refl)).
  intros r [<-|[<-|[]]] _; reflexivity.
Defined.

(** ** Loading the extracts *)

Section LoaderFacts.
Context {R T : Type}.
Variable tag : R -> string -> T.

(** The files whose read returned rows. *)
Local Abbreviation read_ok :=
  (fun f : list string * (string + list R) => exists df, snd f = inr df).

Lemma read_all_inr (found : list (list string * (string + list R)))
      (dfs : list (list T)) :
  Loader.read_all tag found = inr dfs ->
  Forall read_ok found
  /\ List.length dfs = List.length found
  /\ forall t, In t (List.concat dfs)
               <-> exists path df r,
                     In (path, inr df) found /\ In r df
                     /\ t = tag r (Loader.folder_date path).
Proof.
  revert dfs. induction found as [|[path [e|df]] found IH]; simpl; intros dfs.
  - intros [= <-]. repeat split; try constructor; simpl; try contradiction.
    intros (path & df & r & [] & _).
  - discriminate.
  - destruct (Loader.read_all tag found) as [err|dfs'] eqn:E; [discriminate|].
    intros [= <-]. destruct (IH dfs' eq_refl) as (Hok & Hlen & Hmem).
    repeat split.
    + constructor; [now exists df | assumption].
    + simpl. now rewrite Hlen.
    + simpl. rewrite in_app_iff, Hmem, in_map_iff.
      intros [(r & <- & Hr)|(path' & df' & r & Hf & Hr & ->)].
      * exists path, df, r. auto.
      * exists path', df', r. auto.
    + simpl. rewrite in_app_iff, Hmem, in_map_iff.
      intros (path' & df' & r & [[= -> ->]|Hf] & Hr & ->).
      * left. now exists r.
      * right. now exists path', df', r.
Qed.

Lemma read_all_inl (found : list (list string * (string + list R)))
      (err : Loader.Error) :
  Loader.read_all tag found = inl err <->
  exists e pre path post,
    err = Loader.ReadCsvError e
    /\ found = pre ++ (path, inl e) :: post /\ Forall read_ok pre.
Proof.
  revert err. induction found as [|[path [e|df]] found IH]; simpl; intros err.
  - split; [discriminate|]. intros (e & [|x pre] & path & post & _ & E & _);
      discriminate.
  - split.
    + intros [= <-]. exists e, [], path, found. repeat split. constructor.
    + intros (e' & [|x pre] & path' & post & -> & E & Hok).
      * now injection E as -> -> ->.
      * injection E as <- _. apply Forall_inv in Hok.
        destruct Hok as (df & Hdf). discriminate.
  - destruct (Loader.read_all tag found) as [err'|dfs'] eqn:E.
    + split.
      * intros [= <-]. destruct (proj1 (IH err') eq_refl)
          as (e & pre & path' & post & -> & -> & Hok).
        exists e, ((path, inr df) :: pre), path', post.
        repeat split. constructor; [now exists df | assumption].
      * intros (e & [|x pre] & path' & post & -> & E' & Hok);
          [discriminate|].
        injection E' as <- E'. apply Forall_inv_tail in Hok.
        apply (proj2 (IH (Loader.ReadCsvError e))).
        now exists e, pre, path', post.
    + split; [discriminate|].
      intros (e & [|x pre] & path' & post & -> & E' & Hok); [discriminate|].
      injection E' as <- E'. apply Forall_inv_tail in Hok.
      assert (Hbad : @inr Loader.Error _ dfs' = inl (Loader.ReadCsvError e)).
      { apply (proj2 (IH (Loader.ReadCsvError e))).
        now exists e, pre, path', post. }
      discriminate.
Qed.

Lemma load_all_csvs_inr (found : list (list string * (string + list R)))
      (rows : list T) :
  Loader.load_all_csvs tag found = inr rows ->
  exists dfs, Loader.read_all tag found = inr dfs /\ rows = List.concat dfs
              /\ found <> [].
Proof.
  unfold Loader.load_all_csvs.
  destruct (Loader.read_all tag found) as [err|dfs] eqn:E; [discriminate|].
  destruct dfs as [|d dfs]; [discriminate|]. intros [= <-].
  exists (d :: dfs). repeat split.
  intros ->. discriminate.
Qed.

Lemma load_all_csvs_In (found : list (list string * (string + list R)))
      (rows : list T) (t : T) :
  Loader.load_all_csvs tag found = inr rows ->
  (In t rows <->
   exists path df r,
     In (path, inr df) found /\ In r df /\ t = tag r (Loader.folder_date path)).
Proof.
  intros Hload. destruct (load_all_csvs_inr found rows Hload) as (dfs & E & -> & _).
  now apply read_all_inr.
Qed.
End LoaderFacts.

(** X11.  [load_all_csvs] raises [FileNotFoundError] exactly when no file
    is found; it raises the exception of [read_csv] exactly when some
    file's read raises, and then that of the first such file; otherwise,
    every read having returned rows (none, for a file with a header
    only), its rows are the rows of the files, each tagged with the name
    of the directory two levels above its file, which for
    [<dir>/<date>/<sub>/<file>] is [<date>]. *)
Theorem load_all_csvs_spec :
  forall (R T : Type) (tag : R -> string -> T)
         (found : list (list string * (string + list R))),
    (Loader.load_all_csvs tag found = inl Loader.FileNotFoundError
     <-> found = [])
    /\ (forall e,
           Loader.load_all_csvs tag found = inl (Loader.ReadCsvError e)
           <-> exists pre path post,
                 found = pre ++ (path, inl e) :: post
                 /\ Forall (fun f => exists df, snd f = inr df) pre)
    /\ (forall rows,
           Loader.load_all_csvs tag found = inr rows ->
           found <> []
           /\ Forall (fun f => exists df, snd f = inr df) found
           /\ forall t,
                In t rows <->
                exists path df r,
                  In (path, inr df) found /\ In r df
                  /\ t = tag r (Loader.folder_date path))
    /\ (forall (dir : list string) (date sub file : string),
           Loader.folder_date (dir ++ [date; sub; file]) = date).
Proof.
  intros R T tag found. split; [|split; [|split]].
  - unfold Loader.load_all_csvs.
    destruct (Loader.read_all tag found) as [err|dfs] eqn:E.
    + split.
      * intros [= ->]. apply read_all_inl in E.
        destruct E as (e & _ & _ & _ & Habs & _). discriminate.
      * intros ->. discriminate.
    + destruct (read_all_inr tag found dfs E) as (_ & Hlen & _).
      destruct dfs as [|d dfs]; split.
      * intros _. destruct found; [reflexivity | discriminate].
      * reflexivity.
      * discriminate.
      * intros ->. discriminate.
  - intros e. unfold Loader.load_all_csvs.
    destruct (Loader.read_all tag found) as [err|dfs] eqn:E.
    + split.
      * intros [= ->]. apply read_all_inl in E.
        destruct E as (e' & pre & path & post & [= <-] & Hf & Hok).
        now exists pre, path, post.
      * intros (pre & path & post & Hf & Hok).
        assert (E' : Loader.read_all tag found = inl (Loader.ReadCsvError e))
          by (apply read_all_inl; now exists e, pre, path, post).
        congruence.
    + split; [destruct dfs; discriminate|].
      intros (pre & path & post & Hf & Hok).
      assert (E' : Loader.read_all tag found = inl (Loader.ReadCsvError e))
        by (apply read_all_inl; now exists e, pre, path, post).
      congruence.
  - intros rows Hload.
    destruct (load_all_csvs_inr tag found rows Hload) as (dfs & E & -> & Hne).
    destruct (read_all_inr tag found dfs E) as (Hok & _ & Hmem).
    split; [exact Hne|]. split; [exact Hok | exact Hmem].
  - intros dir date sub file. unfold Loader.folder_date.
    now rewrite rev_app_distr.
Qed.

Lemma load_all_csvs_spec_witness :
  let found := [(["data"; "2025-04-01"; "games"; "games.csv"],
                 inr [Games.mkGame 1 [("status", "Final")]]);
                (["data"; "2025-04-02"; "games"; "games.csv"], inr [])] in
  let rows := [Games.mkRaw 1 [("status", "Final")] "2025-04-01"] in
  Loader.load_all_csvs Loader.tag_game found = inr rows
  /\ found <> []
  /\ Forall (fun f => exists df, snd f = inr df) found
  /\ forall t,
       In t rows <->
       exists path df r,
         In (path, inr df) found /\ In r df
         /\ t = Loader.tag_game r (Loader.folder_date path).
Proof.
  intros found rows.
  assert (Hload : Loader.load_all_csvs Loader.tag_game found = inr rows)
    by reflexivity.
  split; [exact Hload|].
  exact (proj1 (proj2 (proj2 (load_all_csvs_spec _ _ Loader.tag_game found)))
               rows Hload).
Defined.

(** X12.  Loading [games.csv] from the dated folders and processing it
    returns rows of the files, untouched: each output row is a row of some
    file, and no file holding a row of the same [gamePk] lies under a
    folder whose name is later in text order. *)
Theorem process_games_after_load :
  forall (found : list (list string * (string + list Games.Game)))
         (rows : list Games.Raw) (g : Games.Game),
    Loader.load_all_csvs Loader.tag_game found = inr rows ->
    In g (Games.process_games rows) ->
    exists path df,
      In (path, inr df) found /\ In g df
      /\ forall path' df' g',
           In (path', inr df') found -> In g' df' ->
           Games.out_gamePk g' = Games.out_gamePk g ->
           String.leb (Loader.folder_date path') (Loader.folder_date path) = true.
Proof.
  intros found rows g Hload Hg.
  unfold Games.process_games in Hg. apply in_map_iff in Hg.
  destruct Hg as (r & <- & Hr).
  destruct (dedup_by_survivor Games.gamePk Games.source_folder_date rows
              (Games.gamePk r)) as (r' & Hone & Hin & Hk & Hlatest & _).
  { exists r. split; [|reflexivity].
    now apply (dedup_by_In Games.gamePk Games.source_folder_date). }
  assert (E : r' = r).
  { assert (Hg : In r (group_rows Games.gamePk (Games.gamePk r) (Games.dedup rows)))
      by (apply group_rows_In; auto).
    unfold Games.dedup, Games.sort_key in Hg. rewrite Hone in Hg.
    destruct Hg as [E|[]]. exact E. }
  subst r'.
  destruct (proj1 (load_all_csvs_In _ _ _ r Hload) Hin)
    as (path & df & g0 & Hf & Hg0 & ->).
  exists path, df. split; [assumption|]. split.
  - now destruct g0.
  - intros path' df' g' Hf' Hg' Ek.
    apply (Hlatest (Loader.tag_game g' (Loader.folder_date path'))).
    + apply (load_all_csvs_In _ _ _ _ Hload). now exists path', df', g'.
    + exact Ek.
Qed.

Lemma process_games_after_load_witness :
  let found := [(["data"; "2025-04-01"; "games"; "games.csv"],
                 inr [Games.mkGame 1 [("status", "Scheduled")]]);
                (["data"; "2025-04-02"; "games"; "games.csv"],
                 inr [Games.mkGame 1 [("status", "Final")]])] in
  let rows := [Games.mkRaw 1 [("status", "Scheduled")] "2025-04-01";
               Games.mkRaw 1 [("status", "Final")] "2025-04-02"] in
  let g := Games.mkGame 1 [("status", "Final")] in
  Loader.load_all_csvs Loader.tag_game found = inr rows
  /\ In g (Games.process_games rows)
  /\ exists path df,
       In (path, inr df) found /\ In g df
       /\ forall path' df' g',
            In (path', inr df') found -> In g' df' ->
            Games.out_gamePk g' = Games.out_gamePk g ->
            String.leb (Loader.folder_date path') (Loader.folder_date path) = true.
Proof.
  intros found rows g.
  assert (Hload : Loader.load_all_csvs Loader.tag_game found = inr rows)
    by reflexivity.
  assert (Hg : In g (Games.process_games rows)) by (left; reflexivity).
  split; [exact Hload|]. split; [exact Hg|].
  exact (process_games_after_load found rows g Hload Hg).
Defined.
